(** * gsuite-mcp: the tool server (src/index.ts) and the Gmail draft service
      (src/modules/gmail/services/draft.ts)

    The TypeScript code is embedded as programs over the calls they await.
    A program is a finite tree: it returns, throws, or awaits one call of a
    collaborator and continues with the call's outcome.  Collaborators that
    live outside the two files (the account manager, the attachment and
    Drive services, the Gmail API client) are the environment: a function
    that answers every call in a world state. *)

From Stdlib Require Import Ascii String ZArith.
From stdpp Require Import base strings list gmap pretty.

Open Scope string_scope.
Open Scope list_scope.

(** ** JavaScript errors *)

Module Js.

(** What `instanceof` can tell about a thrown value. *)
Inductive ErrorClass : Type :=
| IsAccountError
| IsGmailError
| IsCalendarError
| IsError        (* any other instance of Error *)
| IsNotError.    (* a thrown value that is no Error at all *)

(** The module error classes are built from (message, code, resolution?);
    their declarations are in the modules' types files.  `code` and
    `resolution` are undefined on a plain Error. *)
Record Error : Type := mkError {
  class : ErrorClass;
  message : string;
  code : option string;
  resolution : option string
}.

Definition AccountError (msg cod : string) (res : option string) : Error :=
  mkError IsAccountError msg (Some cod) res.

Definition GmailError (msg cod : string) (res : option string) : Error :=
  mkError IsGmailError msg (Some cod) res.

Definition CalendarError (msg cod : string) (res : option string) : Error :=
  mkError IsCalendarError msg (Some cod) res.

(** `new Error(msg)` *)
Definition PlainError (msg : string) : Error :=
  mkError IsError msg None None.

(** `error instanceof Error`: the three module classes extend Error. *)
Definition instanceofError (e : Error) : bool :=
  match class e with
  | IsNotError => false
  | _ => true
  end.

(** `error instanceof AccountError || error instanceof GmailError ||
    error instanceof CalendarError` *)
Definition instanceofModuleError (e : Error) : bool :=
  match class e with
  | IsAccountError | IsGmailError | IsCalendarError => true
  | _ => false
  end.

(** Truthiness of an optional string: undefined and the empty string are
    falsy. *)
Definition truthy (s : option string) : bool :=
  match s with
  | Some x => negb (String.eqb x "")
  | None => false
  end.

(** Truthiness of an optional object: only undefined is falsy. *)
Definition defined {A} (o : option A) : bool :=
  match o with
  | Some _ => true
  | None => false
  end.

(** The string behind a truthy optional string: `if (!x) ... else use x`. *)
Definition nonempty (s : option string) : option string :=
  match s with
  | Some x => if String.eqb x "" then None else Some x
  | None => None
  end.

(** The outcome of an awaited call: a value, or a rejection. *)
Inductive Outcome (A : Type) : Type :=
| Ok (a : A)
| Rejected (e : Error).
Arguments Ok {A} a.
Arguments Rejected {A} e.

End Js.
Import Js.

(** ** Programs over awaited calls *)

Section Programs.

Context {E : Type -> Type}.

Inductive Prog (R : Type) : Type :=
| Ret (r : R)
| Throw (e : Error)
| Call (X : Type) (c : E X) (k : Outcome X -> Prog R).
Arguments Ret {R} r.
Arguments Throw {R} e.
Arguments Call {R X} c k.

(** `await c`: a rejection is rethrown at the await. *)
Definition call {X} (c : E X) : Prog X :=
  Call c (fun o => match o with Ok x => Ret x | Rejected e => Throw e end).

Fixpoint bind {A B} (p : Prog A) (f : A -> Prog B) : Prog B :=
  match p with
  | Ret a => f a
  | Throw e => Throw e
  | Call c k => Call c (fun o => bind (k o) f)
  end.

Definition pmap {A B} (f : A -> B) (p : Prog A) : Prog B :=
  bind p (fun a => Ret (f a)).

(** `try { p } catch (error) { h error }` *)
Fixpoint try_catch {A} (p : Prog A) (h : Error -> Prog A) : Prog A :=
  match p with
  | Ret a => Ret a
  | Throw e => h e
  | Call c k => Call c (fun o => try_catch (k o) h)
  end.

(** `Promise.all(ps)` over async calls.  The code starts every one of them
    when the list is built and lets them continue as their answers come
    in; here each runs to its end before the next starts, in list order.
    The calls made and the outcomes are the same, the order of the calls
    in the log is not.  The result is the list of values, or the
    rejection of the first one in the list that rejected. *)
Definition settle {R} (p : Prog R) : Prog (Outcome R) :=
  try_catch (bind p (fun r => Ret (Ok r))) (fun e => Ret (Rejected e)).

Fixpoint settle_all {R} (ps : list (Prog R)) : Prog (list (Outcome R)) :=
  match ps with
  | [] => Ret []
  | p :: rest =>
      bind (settle p) (fun o =>
      bind (settle_all rest) (fun os => Ret (o :: os)))
  end.

Fixpoint collect {R} (os : list (Outcome R)) : Outcome (list R) :=
  match os with
  | [] => Ok []
  | Rejected e :: _ => Rejected e
  | Ok r :: rest =>
      match collect rest with
      | Ok rs => Ok (r :: rs)
      | Rejected e => Rejected e
      end
  end.

Definition promise_all {R} (ps : list (Prog R)) : Prog (list R) :=
  bind (settle_all ps) (fun os =>
    match collect os with
    | Ok rs => Ret rs
    | Rejected e => Throw e
    end).

(** One entry of the interaction log: the call and what it answered. *)
Inductive Entry : Type :=
| entry (X : Type) (c : E X) (o : Outcome X).
Arguments entry {X} c o.

Section Run.

Context {W : Type}.
Variable answer : forall X, E X -> W -> Outcome X * W.

(** Runs a program to its end against the environment, from world [w];
    the log lists the calls in the order they were issued. *)
Fixpoint run {R} (p : Prog R) (w : W) : Outcome R * W * list Entry :=
  match p with
  | Ret r => (Ok r, w, [])
  | Throw e => (Rejected e, w, [])
  | Call c k =>
      let '(o, w1) := answer _ c w in
      let '(r, w2, log) := run (k o) w1 in
      (r, w2, entry c o :: log)
  end.

Definition result_of {R} (x : Outcome R * W * list Entry) : Outcome R :=
  x.1.1.

Definition world_of {R} (x : Outcome R * W * list Entry) : W := x.1.2.

Definition log_of {R} (x : Outcome R * W * list Entry) : list Entry := x.2.

(** Several invocations in flight at once.  JavaScript runs one handler at
    a time and switches only at an await, so a step lets the invocation
    the schedule names make the call it is waiting to make, which the
    environment answers at once, and leaves it at its next await.  An
    invocation that has finished ignores its turn.  The log records who
    called what. *)
Fixpoint interleave {R} (schedule : list nat) (threads : list (Prog R))
    (w : W) : list (Prog R) * W * list (nat * Entry) :=
  match schedule with
  | [] => (threads, w, [])
  | i :: rest =>
      match threads !! i with
      | Some (Call c k) =>
          let '(o, w1) := answer _ c w in
          let '(ts, w2, log) := interleave rest (<[i := k o]> threads) w1 in
          (ts, w2, (i, entry c o) :: log)
      | _ => interleave rest threads w
      end
  end.

End Run.

End Programs.

Arguments Prog E R : clear implicits.
Arguments Ret {E R} r.
Arguments Throw {E R} e.
Arguments Call {E R X} c k.
Arguments Entry E : clear implicits.
Arguments entry {E X} c o.

Notation "'let*' x ':=' p 'in' k" := (bind p (fun x => k))
  (at level 10, x pattern, p at level 200, k at level 200).

(** An invocation that has returned or thrown. *)
Definition finished {E R} (p : Prog E R) : bool :=
  match p with
  | Call _ _ => false
  | _ => true
  end.

(** ** The draft service: src/modules/gmail/services/draft.ts *)

Module Draft.

(** One element of `DraftData.attachments`. *)
Record DraftAttachment : Type := {
  driveFileId : option string;
  content : option string;
  name : string;
  mimeType : string;
  size : option Z
}.

Record DraftData : Type := {
  to : list string;
  subject : string;
  body : string;
  cc : option (list string);
  bcc : option (list string);
  threadId : option string;
  attachments : option (list DraftAttachment)
}.

Record ManageDraftParams : Type := {
  email : string;
  action : string;
  draftId : option string;
  data : option DraftData
}.

(** The argument `createDraft` builds for `processAttachment`. *)
Record AttachmentMetadata : Type := {
  meta_name : string;
  meta_mimeType : string;
  meta_size : Z
}.

Record AttachmentSource : Type := {
  src_type : string;
  src_fileId : option string;
  src_content : option string;
  src_metadata : AttachmentMetadata
}.

(** What the attachment service hands back; of the attachment the service
    reads `id`, `name` and `mimeType`. *)
Record Attachment : Type := {
  att_id : string;
  att_name : string;
  att_mimeType : string
}.

Record AttachmentResult : Type := {
  proc_success : bool;
  proc_attachment : option Attachment
}.

Record DownloadResult : Type := {
  dl_success : bool;
  dl_data : string
}.

(** Answers of the Gmail API, every field optional as in its schema. *)
Record ApiMessage : Type := {
  api_msg_id : option string;
  api_msg_threadId : option string;
  api_msg_labelIds : option (list string)
}.

Record ApiDraft : Type := {
  api_id : option string;
  api_message : option ApiMessage
}.

(** An entry of `drafts.list`; the service passes its `id!` on to `getDraft`
    as a string, so the entry is taken to carry one. *)
Record ApiDraftRef : Type := { ref_id : string }.

Record ApiDraftList : Type := {
  api_drafts : option (list ApiDraftRef);
  api_nextPageToken : option string;
  api_resultSizeEstimate : option Z
}.

(** The Gmail client object held by the service, named by its account. *)
Record GmailClient : Type := { client_account : string }.

(** The calls the service awaits or makes on its surroundings. *)
Inductive Event : Type -> Type :=
| processAttachment (email : string) (source : AttachmentSource)
    (folder : string) : Event AttachmentResult
| downloadFile (email : string) (fileId : string) : Event DownloadResult
| drafts_create (client : GmailClient) (raw : string)
    (threadId : option string) : Event ApiDraft
| drafts_list (client : GmailClient) : Event ApiDraftList
| drafts_get (client : GmailClient) (id : string) (format : string) :
    Event ApiDraft
| drafts_update (client : GmailClient) (id : string) (raw : string) :
    Event ApiDraft
| drafts_delete (client : GmailClient) (id : string) : Event unit
| drafts_send (client : GmailClient) (id : string) : Event ApiMessage
| Date_now : Event Z
| Date_toISOString : Event string.

(** A request sent to the Gmail API. *)
Definition gmail_request (e : Entry Event) : bool :=
  match e with
  | entry c _ =>
      match c with
      | drafts_create _ _ _ | drafts_list _ | drafts_get _ _ _
      | drafts_update _ _ _ | drafts_delete _ _ | drafts_send _ _ => true
      | _ => false
      end
  end.

(** What the interaction log shows: the attachments processed with
    success, the answered downloads, the raw messages handed to
    `drafts.create` or `drafts.update`, and the number of
    `processAttachment` calls. *)
Definition kept_of_entry (e : Entry Event) : list Attachment :=
  match e with
  | entry c o =>
      match c in Event X return Outcome X -> list Attachment with
      | processAttachment _ _ _ =>
          fun o =>
            match o with
            | Ok result =>
                if proc_success result
                then option_list (proc_attachment result) else []
            | Rejected _ => []
            end
      | _ => fun _ => []
      end o
  end.

Definition download_of_entry (e : Entry Event) : list DownloadResult :=
  match e with
  | entry c o =>
      match c in Event X return Outcome X -> list DownloadResult with
      | downloadFile _ _ =>
          fun o => match o with Ok file => [file] | Rejected _ => [] end
      | _ => fun _ => []
      end o
  end.

Definition raw_of_entry (e : Entry Event) : list string :=
  match e with
  | entry c _ =>
      match c with
      | drafts_create _ raw _ | drafts_update _ _ raw => [raw]
      | _ => []
      end
  end.

Definition is_process (e : Entry Event) : bool :=
  match e with
  | entry c _ => match c with processAttachment _ _ _ => true | _ => false end
  end.

Definition processed_in (log : list (Entry Event)) : list Attachment :=
  flat_map kept_of_entry log.

Definition downloads_in (log : list (Entry Event)) : list DownloadResult :=
  flat_map download_of_entry log.

Definition raws_in (log : list (Entry Event)) : list string :=
  flat_map raw_of_entry log.

Definition process_calls (log : list (Entry Event)) : nat :=
  length (filter (fun e => is_process e) log).

(** The results of the operations. *)
Record MessageInfo : Type := {
  msg_id : option string;
  msg_threadId : option string;
  msg_labelIds : list string
}.

Record DraftResult : Type := {
  res_id : option string;
  res_message : MessageInfo;
  res_updated : string;
  res_attachments : list Attachment
}.

Record DraftInfo : Type := {
  info_id : option string;
  info_message : MessageInfo;
  info_updated : string
}.

Record DraftList : Type := {
  drafts : list DraftInfo;
  nextPageToken : option string;
  resultSizeEstimate : Z
}.

Record SendResult : Type := {
  messageId : option string;
  sent_threadId : option string;
  sent_labelIds : option (list string)
}.

(** The service object: its only mutable field is the Gmail client. *)
Record DraftService : Type := { gmailClient : option GmailClient }.

(** The state the constructor leaves: no client yet. *)
Definition new_DraftService : DraftService := {| gmailClient := None |}.

Definition updateClient (self : DraftService) (client : GmailClient) :
    DraftService :=
  {| gmailClient := Some client |}.

Section Service.

(** `ATTACHMENT_FOLDERS.OUTGOING`, declared in attachments/types, and the
    base64 rendering `Buffer.from(s).toString('base64')` of the runtime. *)
Variable OUTGOING : string.
Variable base64 : string -> string.

Definition ensureClient (self : DraftService) : Prog Event GmailClient :=
  match gmailClient self with
  | None =>
      Throw (GmailError "Gmail client not initialized" "CLIENT_ERROR"
               (Some "Please ensure the service is initialized"))
  | Some client => Ret client
  end.

(** `error instanceof Error ? error.message : 'Unknown error'` *)
Definition message_or_unknown (error : Error) : string :=
  if instanceofError error then message error else "Unknown error".

(** The catch block shared in shape by all six operations. *)
Definition wrap {R} (msg cod : string) (p : Prog Event R) : Prog Event R :=
  try_catch p
    (fun error => Throw (GmailError msg cod (Some (message_or_unknown error)))).

(** `attachment.size || 0` *)
Definition size_or_0 (s : option Z) : Z := default 0%Z s.

Definition attachment_source (attachment : DraftAttachment) :
    AttachmentSource :=
  {| src_type := if truthy (driveFileId attachment) then "drive" else "local";
     src_fileId := driveFileId attachment;
     src_content := content attachment;
     src_metadata :=
       {| meta_name := name attachment;
          meta_mimeType := mimeType attachment;
          meta_size := size_or_0 (size attachment) |} |}.

(** The loop over `data.attachments` (lines 67-86 and 216-235): a result is
    pushed only if `result.success && result.attachment`. *)
Fixpoint process_loop (email : string) (atts : list DraftAttachment)
    (processedAttachments : list Attachment) : Prog Event (list Attachment) :=
  match atts with
  | [] => Ret processedAttachments
  | attachment :: rest =>
      let* result :=
        call (processAttachment email (attachment_source attachment) OUTGOING)
      in
      match proc_success result, proc_attachment result with
      | true, Some a => process_loop email rest (processedAttachments ++ [a])
      | _, _ => process_loop email rest processedAttachments
      end
  end.

Definition processAttachments (email : string)
    (atts : option (list DraftAttachment)) : Prog Event (list Attachment) :=
  match atts with
  | Some l => process_loop email l []
  | None => Ret []
  end.

Definition nl : string := String "010"%char "".
Definition dq : string := String "034"%char "".

(** `data.cc?.length ? `Cc: ${...}\n` : ''` *)
Definition optional_header (label : string) (l : option (list string)) :
    string :=
  match l with
  | Some (x :: xs) => label +:+ ": " +:+ String.concat ", " (x :: xs) +:+ nl
  | _ => ""
  end.

(** The initial `messageParts` (lines 91-103 and 240-252). *)
Definition head_parts (boundary : string) (data : DraftData) : list string :=
  [ "MIME-Version: 1.0" +:+ nl;
    "Content-Type: multipart/mixed; boundary=" +:+ dq +:+ boundary +:+ dq
      +:+ nl;
    "To: " +:+ String.concat ", " (to data) +:+ nl;
    optional_header "Cc" (cc data);
    optional_header "Bcc" (bcc data);
    "Subject: " +:+ subject data +:+ nl +:+ nl;
    "--" +:+ boundary +:+ nl;
    "Content-Type: text/plain; charset=" +:+ dq +:+ "UTF-8" +:+ dq +:+ nl;
    "Content-Transfer-Encoding: 7bit" +:+ nl +:+ nl;
    body data;
    nl ].

(** The six strings pushed for one downloaded attachment. *)
Definition attachment_part (boundary : string) (attachment : Attachment)
    (file : DownloadResult) : list string :=
  [ "--" +:+ boundary +:+ nl;
    "Content-Type: " +:+ att_mimeType attachment +:+ nl;
    "Content-Transfer-Encoding: base64" +:+ nl;
    "Content-Disposition: attachment; filename=" +:+ dq
      +:+ att_name attachment +:+ dq +:+ nl +:+ nl;
    base64 (dl_data file);
    nl ].

(** The loop over `processedAttachments` (lines 106-121 and 255-270). *)
Fixpoint download_loop (email boundary : string)
    (processed : list Attachment) (messageParts : list string) :
    Prog Event (list string) :=
  match processed with
  | [] => Ret messageParts
  | attachment :: rest =>
      let* fileResult := call (downloadFile email (att_id attachment)) in
      if dl_success fileResult
      then download_loop email boundary rest
             (messageParts ++ attachment_part boundary attachment fileResult)
      else download_loop email boundary rest messageParts
  end.

(** The parts a message holds for its attachments when `kept` were
    processed and `files` are the answers of their downloads: six strings
    for a download that succeeded, nothing for one that failed. *)
Definition expected_parts (boundary : string) (kept : list Attachment)
    (files : list DownloadResult) : list string :=
  concat (zip_with
            (fun attachment file =>
               if dl_success file
               then attachment_part boundary attachment file else [])
            kept files).

(** The message text for the boundary of time `now`. *)
Definition expected_message (now : Z) (data : DraftData)
    (kept : list Attachment) (files : list DownloadResult) : string :=
  let boundary := "boundary_" +:+ pretty now in
  String.concat ""
    (head_parts boundary data ++ expected_parts boundary kept files
       ++ ["--" +:+ boundary +:+ "--"]).

(** Lines 89-124 and 238-273: the full message text. *)
Definition build_message (email : string) (data : DraftData)
    (processed : list Attachment) : Prog Event string :=
  let* now := call Date_now in
  let boundary := "boundary_" +:+ pretty now in
  let* messageParts :=
    download_loop email boundary processed (head_parts boundary data) in
  Ret (String.concat "" (messageParts ++ ["--" +:+ boundary +:+ "--"])).

(** `{ id: m?.id!, threadId: m?.threadId!, labelIds: m?.labelIds || [] }` *)
Definition message_info (m : option ApiMessage) : MessageInfo :=
  {| msg_id := m ≫= api_msg_id;
     msg_threadId := m ≫= api_msg_threadId;
     msg_labelIds := default [] (m ≫= api_msg_labelIds) |}.

Definition draft_result (draft : ApiDraft) (updated : string)
    (processed : list Attachment) : DraftResult :=
  {| res_id := api_id draft;
     res_message := message_info (api_message draft);
     res_updated := updated;
     res_attachments := processed |}.

(** Surroundings in which every call is answered and none rejected: a
    failure is reported in the answer (`success: false`). *)
Definition answers_all {W : Type}
    (answer : forall X, Event X -> W -> Outcome X * W) : Prop :=
  forall X (c : Event X) (w : W), exists x, (answer X c w).1 = Ok x.

(** What a run of `createDraft` or `updateDraft` looks like when failed
    attachments are dropped without a word: it succeeds; every attachment
    was handed to `processAttachment`; the result lists the attachments
    processed with success; each of those was downloaded; and the one
    message sent holds parts for the downloads that succeeded only. *)
Definition dropped_silently {W : Type} (data : DraftData)
    (outcome : Outcome DraftResult * W * list (Entry Event)) : Prop :=
  exists r w' log now,
    outcome = (Ok r, w', log) /\
    process_calls log = length (default [] (attachments data)) /\
    res_attachments r = processed_in log /\
    length (downloads_in log) = length (processed_in log) /\
    raws_in log =
      [base64 (expected_message now data (processed_in log)
                 (downloads_in log))].

Definition createDraft (self : DraftService) (email : string)
    (data : DraftData) : Prog Event DraftResult :=
  wrap "Failed to create draft" "CREATE_ERROR"
    (let* client := ensureClient self in
     let* processedAttachments := processAttachments email (attachments data) in
     let* fullMessage := build_message email data processedAttachments in
     let* draft :=
       call (drafts_create client (base64 fullMessage) (threadId data)) in
     let* updated := call Date_toISOString in
     Ret (draft_result draft updated processedAttachments)).

Definition getDraft (self : DraftService) (email : string) (draftId : string) :
    Prog Event DraftInfo :=
  wrap "Failed to get draft" "GET_ERROR"
    (let* client := ensureClient self in
     let* data := call (drafts_get client draftId "full") in
     let* updated := call Date_toISOString in
     Ret {| info_id := api_id data;
            info_message := message_info (api_message data);
            info_updated := updated |}).

Definition listDrafts (self : DraftService) (email : string) :
    Prog Event DraftList :=
  wrap "Failed to list drafts" "LIST_ERROR"
    (let* client := ensureClient self in
     let* data := call (drafts_list client) in
     let* drafts :=
       promise_all
         (map (fun draft => getDraft self email (ref_id draft))
              (default [] (api_drafts data))) in
     Ret {| drafts := drafts;
            nextPageToken :=
              if truthy (api_nextPageToken data)
              then api_nextPageToken data else None;
            resultSizeEstimate := default 0%Z (api_resultSizeEstimate data) |}).

Definition updateDraft (self : DraftService) (email : string)
    (draftId : string) (data : DraftData) : Prog Event DraftResult :=
  wrap "Failed to update draft" "UPDATE_ERROR"
    (let* client := ensureClient self in
     let* processedAttachments := processAttachments email (attachments data) in
     let* fullMessage := build_message email data processedAttachments in
     let* draft := call (drafts_update client draftId (base64 fullMessage)) in
     let* updated := call Date_toISOString in
     Ret (draft_result draft updated processedAttachments)).

Definition deleteDraft (self : DraftService) (email : string)
    (draftId : string) : Prog Event unit :=
  wrap "Failed to delete draft" "DELETE_ERROR"
    (let* client := ensureClient self in
     let* _ := call (drafts_delete client draftId) in
     Ret tt).

Definition sendDraft (self : DraftService) (email : string)
    (draftId : string) : Prog Event SendResult :=
  wrap "Failed to send draft" "SEND_ERROR"
    (let* client := ensureClient self in
     let* data := call (drafts_send client draftId) in
     Ret {| messageId := api_msg_id data;
            sent_threadId := api_msg_threadId data;
            sent_labelIds := api_msg_labelIds data |}).

(** What `manageDraft` can return. *)
Inductive ManageResult : Type :=
| Created (r : DraftResult)
| Listed (l : DraftList)
| Read (d : DraftInfo)
| Updated (r : DraftResult)
| Deleted
| Sent (s : SendResult).

Definition manageDraft (self : DraftService) (params : ManageDraftParams) :
    Prog Event ManageResult :=
  let email := email params in
  let action := action params in
  let draftId := nonempty (draftId params) in
  let data := data params in
  if String.eqb action "create" then
    match data with
    | None =>
        Throw (GmailError "Draft data is required for create action"
                 "INVALID_PARAMS" None)
    | Some data => pmap Created (createDraft self email data)
    end
  else if String.eqb action "read" then
    match draftId with
    | None => pmap Listed (listDrafts self email)
    | Some draftId => pmap Read (getDraft self email draftId)
    end
  else if String.eqb action "update" then
    match draftId, data with
    | Some draftId, Some data =>
        pmap Updated (updateDraft self email draftId data)
    | _, _ =>
        Throw (GmailError "Draft ID and data are required for update action"
                 "INVALID_PARAMS" None)
    end
  else if String.eqb action "delete" then
    match draftId with
    | None =>
        Throw (GmailError "Draft ID is required for delete action"
                 "INVALID_PARAMS" None)
    | Some draftId => pmap (fun _ => Deleted) (deleteDraft self email draftId)
    end
  else if String.eqb action "send" then
    match draftId with
    | None =>
        Throw (GmailError "Draft ID is required for send action"
                 "INVALID_PARAMS" None)
    | Some draftId => pmap Sent (sendDraft self email draftId)
    end
  else
    Throw (GmailError "Invalid action" "INVALID_PARAMS"
             (Some "Supported actions are: create, read, update, delete, send")).

End Service.

End Draft.

(** ** The tool server: src/index.ts *)

Module Server.

(** Loosely typed tool arguments and service answers (`any`). *)
#[warnings="-register-all"]
Inductive Json : Type :=
| JNull
| JBool (b : bool)
| JNum (n : Z)
| JStr (s : string)
| JArr (l : list Json)
| JObj (fields : list (string * Json)).

(** The records the account manager exchanges with the handler.  They are
    declared in modules/accounts/types; the fields are those the handler
    reads and those of the credential and the account of the data model. *)
Record TokenData : Type := {
  access_token : string;
  refresh_token : option string;
  expiry_date : Z;
  scope : list string
}.

Record TokenStatus : Type := {
  valid : bool;
  token : option TokenData;
  reason : option string
}.

Record Account : Type := {
  account_email : string;
  account_category : option string;
  account_description : option string;
  account_created : Z
}.

(** An entry of `listAccounts()`: the account and a summary of its
    credential without the secrets. *)
Record AccountInfo : Type := {
  info_account : Account;
  info_scopes : option (list string);
  info_expiry : option Z
}.

(** The Gmail and Calendar services, reached through `getGmailService()`
    and `getCalendarService()`. *)
Inductive ServiceCall : Type :=
| getEmails (args : Json)
| sendEmail (args : Json)
| getEvents (args : Json)
| getEvent (email eventId : string)
| createEvent (args : Json).

(** The calls the handler awaits; those of the account manager are reached
    through `getAccountManager()`, whose own failure counts as the failure
    of the call made on it. *)
Inductive Event : Type -> Type :=
| listAccounts : Event (list AccountInfo)
| validateAccount (email : string) (category description : option string) :
    Event Account
| validateToken (email : string) (required_scopes : list string) :
    Event TokenStatus
| refreshToken (refresh_token : option string) : Event TokenData
| saveToken (email : string) (token : TokenData) : Event unit
| getTokenFromCode (code : string) : Event TokenData
| generateAuthUrl (scopes : list string) : Event string
| removeAccount (email : string) : Event unit
| service (c : ServiceCall) : Event Json.

(** `request.params.arguments` of use_google_account. *)
Record UseArgs : Type := {
  email : string;
  category : option string;
  description : option string;
  required_scopes : list string;
  auth_code : option string
}.

(** `request.params`: the tool name with its arguments. *)
Inductive ToolRequest : Type :=
| list_google_accounts
| use_google_account (args : UseArgs)
| forget_google_account (email : string)
| get_emails (args : Json)
| send_email (args : Json)
| get_calendar_events (args : Json)
| get_calendar_event (email eventId : string)
| create_calendar_event (args : Json)
| unknown_tool (name : string).

(** The object `formatErrorResponse` returns. *)
Record ErrorResponse : Type := {
  err_status : string;
  err_error : string;
  err_resolution : option string
}.

(** The value handed to `JSON.stringify` for the text of the response. *)
Inductive Content : Type :=
| accounts_json (accounts : list AccountInfo)
| status_json (status message : string)
| auth_required_json (status auth_url message instructions : string)
| service_json (j : Json)
| error_json (r : ErrorResponse).

Record ToolResult : Type := {
  content : Content;
  isError : bool
}.

Definition text (c : Content) : ToolResult :=
  {| content := c; isError := false |}.

(** The fields `JSON.stringify` writes for a status or error object; a
    field whose value is undefined is left out. *)
Definition json_fields (c : Content) : list (string * string) :=
  match c with
  | status_json s m => [("status", s); ("message", m)]
  | auth_required_json s u m i =>
      [("status", s); ("auth_url", u); ("message", m); ("instructions", i)]
  | error_json r =>
      [("status", err_status r); ("error", err_error r)]
        ++ match err_resolution r with
           | Some x => [("resolution", x)]
           | None => []
           end
  | _ => []
  end.

Definition formatErrorResponse (error : Error) : ErrorResponse :=
  if instanceofModuleError error then
    {| err_status := "error";
       err_error := message error;
       err_resolution := resolution error |}
  else
    {| err_status := "error";
       err_error := if instanceofError error then message error
                    else "Unknown error occurred";
       err_resolution :=
         Some "Please try again or contact support if the issue persists" |}.

Definition nl : string := String "010"%char "".

Definition instructions : string :=
  String.concat nl
    [ "1. Click the authorization URL below to open Google sign-in";
      "2. Sign in with your Google account";
      "3. Allow the requested permissions";
      "4. Copy the authorization code shown";
      "5. Run this request again with the auth_code parameter set to the code you copied" ].

Definition refreshing_response : ToolResult :=
  text (status_json "refreshing"
          "Token refreshed successfully, please retry the request").

Definition code_saved_response : ToolResult :=
  text (status_json "success"
          "Authentication successful! Token saved. Please retry your request.").

Definition auth_required_response (authUrl : string) : ToolResult :=
  text (auth_required_json "auth_required" authUrl
          "Please complete authentication:" instructions).

Definition authenticated_response : ToolResult :=
  text (status_json "success"
          "Account is already authenticated with required scopes").

(** The body of `case 'use_google_account'` (lines 297-366). *)
Definition use_account (args : UseArgs) : Prog Event ToolResult :=
  let* _ :=
    call (validateAccount (email args) (category args) (description args)) in
  let* tokenStatus :=
    call (validateToken (email args) (required_scopes args)) in
  let authorize :=
    match nonempty (auth_code args) with
    | Some auth_code =>
        let* tokenData := call (getTokenFromCode auth_code) in
        let* _ := call (saveToken (email args) tokenData) in
        Ret code_saved_response
    | None =>
        let* authUrl := call (generateAuthUrl (required_scopes args)) in
        Ret (auth_required_response authUrl)
    end in
  if negb (valid tokenStatus) || negb (defined (token tokenStatus)) then
    match token tokenStatus with
    | Some tok =>
        if bool_decide (reason tokenStatus = Some "Token expired") then
          let* newToken := call (refreshToken (refresh_token tok)) in
          let* _ := call (saveToken (email args) newToken) in
          Ret refreshing_response
        else authorize
    | None => authorize
    end
  else Ret authenticated_response.

(** The body of `case 'forget_google_account'` (lines 368-381). *)
Definition forget_account (email : string) : Prog Event ToolResult :=
  let* _ := call (removeAccount email) in
  Ret (text (status_json "success"
               ("Successfully removed account " +:+ email
                  +:+ " and deleted associated tokens"))).

Definition dispatch (request : ToolRequest) : Prog Event ToolResult :=
  match request with
  | list_google_accounts =>
      let* accounts := call listAccounts in
      Ret (text (accounts_json accounts))
  | use_google_account args => use_account args
  | forget_google_account email => forget_account email
  | get_emails args =>
      let* emails := call (service (getEmails args)) in
      Ret (text (service_json emails))
  | send_email args =>
      let* result := call (service (sendEmail args)) in
      Ret (text (service_json result))
  | get_calendar_events args =>
      let* events := call (service (getEvents args)) in
      Ret (text (service_json events))
  | get_calendar_event email eventId =>
      let* event := call (service (getEvent email eventId)) in
      Ret (text (service_json event))
  | create_calendar_event args =>
      let* event := call (service (createEvent args)) in
      Ret (text (service_json event))
  | unknown_tool name => Throw (PlainError ("Unknown tool: " +:+ name))
  end.

(** The CallToolRequestSchema handler (lines 284-449): the switch inside
    the try, every throw turned into an error response. *)
Definition callTool (request : ToolRequest) : Prog Event ToolResult :=
  try_catch (dispatch request)
    (fun error =>
       Ret {| content := error_json (formatErrorResponse error);
              isError := true |}).

(** Calls that reach the authorization server over the network. *)
Definition is_refresh (e : Entry Event) : bool :=
  match e with
  | entry c _ => match c with refreshToken _ => true | _ => false end
  end.

Definition is_exchange (e : Entry Event) : bool :=
  match e with
  | entry c _ => match c with getTokenFromCode _ => true | _ => false end
  end.

Definition network_call (e : Entry Event) : bool :=
  is_refresh e || is_exchange e.

(** The scope lists for which the handler asked a consent URL. *)
Definition requested_scopes (log : list (Entry Event)) : list (list string) :=
  flat_map
    (fun e =>
       match e with
       | entry c _ => match c with generateAuthUrl s => [s] | _ => [] end
       end)
    log.

(** How many times the log shows `refreshToken` called. *)
Definition refresh_calls (log : list (Entry Event)) : nat :=
  length (filter (fun e => is_refresh e) log).

(** A failure response names the kind of the error if one of its fields
    holds the error's code, and a next action if it has a resolution. *)
Definition names_kind (e : Error) (r : ErrorResponse) : Prop :=
  exists k c, code e = Some c /\ (k, c) ∈ json_fields (error_json r).

Definition names_next_action (r : ErrorResponse) : Prop :=
  is_Some (err_resolution r).

End Server.

(** ** The account manager: modules/accounts

    The module behind `getAccountManager()` is not part of the two files
    above; only its callers are.  Its operations are set down here from
    the specification's component design (sections 3 and 4), under the names
    the handler calls them by. *)

Module Accounts.

Import Server.

(** Modelled from the spec: the authorization server of section 6, which
    is missing as an external collaborator.  A refresh request is granted
    with a renewed access token, its expiry and scopes, or the refresh
    token is reported invalid, or the server cannot be reached. *)
Inductive RefreshReply : Type :=
| Renewed (access : string) (expiry : Z) (scopes : list string)
| Invalid
| Unreachable.

(** Modelled from the spec: the code-exchange answer
    `{access_token, refresh_token?, expires_in, scope?}` of section 6. *)
Record ExchangeReply : Type := {
  ex_access_token : string;
  ex_refresh_token : option string;
  ex_expires_in : Z;
  ex_scope : option (list string)
}.

(** Modelled from the spec: the three endpoints of the authorization
    server (section 6) and the downstream services, which the account
    module leaves to their own modules. *)
Record Surroundings : Type := {
  consent_endpoint : list string -> string;
  exchange_endpoint : string -> option ExchangeReply;
  refresh_endpoint : string -> RefreshReply;
  downstream : ServiceCall -> Outcome Json
}.

(** Modelled from the spec: the persisted and ephemeral state of the
    missing account module (section 3): the registry in insertion order,
    the token store with at most one credential per account, the current
    time, the pending authorizations in the order they were issued and
    the authorization codes already consumed. *)
Record State : Type := {
  registry : list Account;
  store : gmap string TokenData;
  clock : Z;
  pending : list (list string);
  consumed : list string
}.

Definition set_registry (r : list Account) (st : State) : State :=
  {| registry := r; store := store st; clock := clock st;
     pending := pending st; consumed := consumed st |}.

Definition set_store (s : gmap string TokenData) (st : State) : State :=
  {| registry := registry st; store := s; clock := clock st;
     pending := pending st; consumed := consumed st |}.

Definition set_pending (p : list (list string)) (st : State) : State :=
  {| registry := registry st; store := store st; clock := clock st;
     pending := p; consumed := consumed st |}.

Definition set_consumed (c : list string) (st : State) : State :=
  {| registry := registry st; store := store st; clock := clock st;
     pending := pending st; consumed := c |}.

Definition has_email (email : string) (a : Account) : bool :=
  String.eqb (account_email a) email.

(** Modelled from the spec: `register` of the missing Account Registry
    (section 4.2): creates the account if absent, otherwise returns the
    existing record unchanged. *)
Definition register (email : string) (category description : option string)
    (st : State) : Account * State :=
  match find (has_email email) (registry st) with
  | Some existing => (existing, st)
  | None =>
      let created :=
        {| account_email := email;
           account_category := category;
           account_description := description;
           account_created := clock st |} in
      (created, set_registry (registry st ++ [created]) st)
  end.

(** Modelled from the spec: `isSatisfied` of the missing Scope Reconciler
    (section 4.3): required ⊆ granted, by exact string equality. *)
Definition isSatisfied (granted required : list string) : bool :=
  forallb (fun s => bool_decide (s ∈ granted)) required.

(** Modelled from the spec: a credential of the missing token module is
    stale once its expiry timestamp lies in the past (section 3). *)
Definition expired (now : Z) (t : TokenData) : bool :=
  bool_decide (expiry_date t < now)%Z.

(** Modelled from the spec: the credential check of the missing
    `validateToken` (section 4.6, `validate`): no credential, then
    insufficient scope, then expiry.  The result has the shape
    `{valid, token, reason}` the handler reads, and an expired credential
    is reported with the reason the handler tests for; the refresh itself
    is what the handler does next. *)
Definition check_token (email : string) (required_scopes : list string)
    (st : State) : TokenStatus :=
  match store st !! email with
  | None => {| valid := false; token := None; reason := Some "no credential" |}
  | Some t =>
      if negb (isSatisfied (scope t) required_scopes) then
        {| valid := false; token := Some t;
           reason := Some "insufficient scope" |}
      else if expired (clock st) t then
        {| valid := false; token := Some t; reason := Some "Token expired" |}
      else {| valid := true; token := Some t; reason := None |}
  end.

(** Modelled from the spec: `refresh` of the missing Refresh Engine
    (section 4.5): access token and expiry replaced, refresh token
    retained; `RefreshRejected` and `TransientRefreshError` otherwise. *)
Definition refresh (server : Surroundings) (refresh_token : option string) :
    Outcome TokenData :=
  match refresh_token with
  | None =>
      Rejected (AccountError "No refresh token" "RefreshRejected"
                  (Some "Re-authorize the account"))
  | Some r =>
      match refresh_endpoint server r with
      | Renewed access expiry scopes =>
          Ok {| access_token := access; refresh_token := Some r;
                expiry_date := expiry; scope := scopes |}
      | Invalid =>
          Rejected (AccountError "Refresh token rejected" "RefreshRejected"
                      (Some "Re-authorize the account"))
      | Unreachable =>
          Rejected (AccountError "Refresh failed" "TransientRefreshError"
                      (Some "Retry later"))
      end
  end.

(** Modelled from the spec: `exchangeCode` of the missing Authorization
    Flow Builder (section 4.4): a code is single-use; the granted scopes
    are the server's if present, else those of the pending authorization,
    which is consumed. *)
Definition exchangeCode (server : Surroundings) (code : string) (st : State) :
    Outcome TokenData * State :=
  if bool_decide (code ∈ consumed st) then
    (Rejected (AccountError "Authorization code already used" "ExchangeError"
                 (Some "Request a new authorization code")), st)
  else
    match exchange_endpoint server code with
    | None =>
        (Rejected (AccountError "Authorization code rejected" "ExchangeError"
                     (Some "Request a new authorization code")), st)
    | Some reply =>
        (Ok {| access_token := ex_access_token reply;
               refresh_token := ex_refresh_token reply;
               expiry_date := (clock st + ex_expires_in reply)%Z;
               scope := default (default [] (last (pending st)))
                          (ex_scope reply) |},
         set_consumed (code :: consumed st)
           (set_pending (removelast (pending st)) st))
    end.

(** Modelled from the spec: `generateConsentUrl` of the missing
    Authorization Flow Builder (section 4.4): the URL is a function of the
    requested scopes, and the request is recorded as pending. *)
Definition generateConsentUrl (server : Surroundings) (scopes : list string)
    (st : State) : string * State :=
  (consent_endpoint server scopes, set_pending (pending st ++ [scopes]) st).

(** Modelled from the spec: `revoke` of the missing Orchestrator
    (section 4.6): deletes the credential and the account record. *)
Definition revoke (email : string) (st : State) : State :=
  set_store (delete email (store st))
    (set_registry (filter (fun a => ¬ has_email email a) (registry st)) st).

(** Modelled from the spec: `list` of the missing Orchestrator
    (section 4.6): the accounts in insertion order, each with a summary of
    its credential that leaves the tokens out. *)
Definition list_accounts (st : State) : list AccountInfo :=
  map (fun a =>
         let t := store st !! account_email a in
         {| info_account := a;
            info_scopes := scope <$> t;
            info_expiry := expiry_date <$> t |})
      (registry st).

(** Modelled from the spec: the missing account manager as the handler
    sees it, each method answered by the operation of the specification it
    stands for (register, validate, refresh, put, exchangeCode,
    generateConsentUrl, revoke, list). *)
Definition manager (server : Surroundings) (X : Type) (c : Event X)
    (st : State) : Outcome X * State :=
  match c in Event X return Outcome X * State with
  | listAccounts => (Ok (list_accounts st), st)
  | validateAccount email category description =>
      let '(a, st') := register email category description st in (Ok a, st')
  | validateToken email required_scopes =>
      (Ok (check_token email required_scopes st), st)
  | refreshToken refresh_token => (refresh server refresh_token, st)
  | saveToken email t => (Ok tt, set_store (<[email := t]> (store st)) st)
  | getTokenFromCode code => exchangeCode server code st
  | generateAuthUrl scopes =>
      let '(url, st') := generateConsentUrl server scopes st in (Ok url, st')
  | removeAccount email => (Ok tt, revoke email st)
  | service c => (downstream server c, st)
  end.

End Accounts.

(** ** Concrete surroundings and requests *)

Module Scenario.

Import Server Accounts.

(** An authorization server that renews the refresh token "r1" and knows
    the code "c1"; the downstream services answer null. *)
Definition srv : Surroundings :=
  {| consent_endpoint :=
       fun scopes => "https://auth.example/consent?scope="
                       +:+ String.concat " " scopes;
     exchange_endpoint :=
       fun code =>
         if String.eqb code "c1"
         then Some {| ex_access_token := "at1";
                      ex_refresh_token := Some "r1";
                      ex_expires_in := 3600;
                      ex_scope := None |}
         else None;
     refresh_endpoint :=
       fun r => if String.eqb r "r1" then Renewed "at2" 3800 ["read"]
                else Invalid;
     downstream := fun _ => Ok JNull |}.

Definition work_account : Account :=
  {| account_email := "a@x.com";
     account_category := Some "work";
     account_description := None;
     account_created := 0 |}.

(** A credential for scope `read` that expires at time 100. *)
Definition read_token : TokenData :=
  {| access_token := "at1";
     refresh_token := Some "r1";
     expiry_date := 100;
     scope := ["read"] |}.

Definition empty_state : State :=
  {| registry := []; store := ∅; clock := 0; pending := [];
     consumed := [] |}.

(** The account holds `read_token`; at time 50 it is fresh, at time 200
    it is expired. *)
Definition state_at (now : Z) : State :=
  {| registry := [work_account];
     store := {["a@x.com" := read_token]};
     clock := now;
     pending := [];
     consumed := [] |}.

Definition request_for (scopes : list string) : UseArgs :=
  {| email := "a@x.com";
     category := None;
     description := None;
     required_scopes := scopes;
     auth_code := None |}.

Definition personal_request : UseArgs :=
  {| email := "a@x.com";
     category := Some "personal";
     description := Some "second registration";
     required_scopes := ["read"];
     auth_code := None |}.

(** The draft service's surroundings: folder name and an encoder. *)
Definition OUTGOING : string := "outgoing".
Definition base64 (s : string) : string := "b64(" +:+ s +:+ ")".

Definition no_data_create : Draft.ManageDraftParams :=
  {| Draft.email := "a@x.com"; Draft.action := "create";
     Draft.draftId := None; Draft.data := None |}.

Definition attachment_named (n : string) : Draft.DraftAttachment :=
  {| Draft.driveFileId := Some n; Draft.content := None; Draft.name := n;
     Draft.mimeType := "text/plain"; Draft.size := None |}.

(** A draft with three attachments. *)
Definition draft_data : Draft.DraftData :=
  {| Draft.to := ["b@x.com"]; Draft.subject := "s"; Draft.body := "hello";
     Draft.cc := None; Draft.bcc := None; Draft.threadId := None;
     Draft.attachments :=
       Some [attachment_named "good"; attachment_named "unprocessed";
             attachment_named "undownloadable"] |}.

(** Surroundings that never reject: the attachment "unprocessed" is
    reported as not processed, the file "undownloadable" as not
    downloaded; the world counts the calls. *)
Definition drive (X : Type) (c : Draft.Event X) (w : nat) :
    Outcome X * nat :=
  match c in Draft.Event X return Outcome X * nat with
  | Draft.processAttachment _ source _ =>
      let n := Draft.meta_name (Draft.src_metadata source) in
      (Ok {| Draft.proc_success := negb (String.eqb n "unprocessed");
             Draft.proc_attachment :=
               if String.eqb n "unprocessed" then None
               else Some {| Draft.att_id := n; Draft.att_name := n;
                            Draft.att_mimeType := "text/plain" |} |}, S w)
  | Draft.downloadFile _ fileId =>
      (Ok {| Draft.dl_success := negb (String.eqb fileId "undownloadable");
             Draft.dl_data := "data" |}, S w)
  | Draft.drafts_create _ _ _ | Draft.drafts_get _ _ _
  | Draft.drafts_update _ _ _ =>
      (Ok {| Draft.api_id := Some "d1"; Draft.api_message := None |}, S w)
  | Draft.drafts_list _ =>
      (Ok {| Draft.api_drafts := None; Draft.api_nextPageToken := None;
             Draft.api_resultSizeEstimate := None |}, S w)
  | Draft.drafts_delete _ _ => (Ok tt, S w)
  | Draft.drafts_send _ _ =>
      (Ok {| Draft.api_msg_id := Some "m1"; Draft.api_msg_threadId := None;
             Draft.api_msg_labelIds := None |}, S w)
  | Draft.Date_now => (Ok 1700000000000%Z, S w)
  | Draft.Date_toISOString => (Ok "2024-01-01T00:00:00.000Z", S w)
  end.

Definition a_client : Draft.GmailClient := {| Draft.client_account := "a@x.com" |}.

End Scenario.

(** ** What a program does on every path

    Properties of a program that hold whatever its calls are answered:
    they are read off the tree, one answer at a time. *)

Section Paths.

Context {E : Type -> Type}.

(** Every call the program can come to make passes [P]. *)
Fixpoint always {R} (P : Entry E -> Prop) (p : Prog E R) : Prop :=
  match p with
  | Ret _ | Throw _ => True
  | Call c k => forall o, P (entry c o) /\ always P (k o)
  end.

(** On no path do more than [n] calls pass [P]. *)
Fixpoint at_most {R} (P : Entry E -> bool) (n : nat) (p : Prog E R) : Prop :=
  match p with
  | Ret _ | Throw _ => True
  | Call c k =>
      forall o,
        if P (entry c o)
        then match n with
             | 0 => False
             | S m => at_most P m (k o)
             end
        else at_most P n (k o)
  end.

(** Every value the program can return passes [Q]. *)
Fixpoint returns {R} (Q : R -> Prop) (p : Prog E R) : Prop :=
  match p with
  | Ret r => Q r
  | Throw _ => True
  | Call _ k => forall o, returns Q (k o)
  end.

(** A rejected call ends the program at once, with the rejection as the
    error thrown. *)
Fixpoint rethrows {R} (p : Prog E R) : Prop :=
  match p with
  | Ret _ | Throw _ => True
  | Call _ k =>
      (forall e, k (Rejected e) = Throw e) /\ forall x, rethrows (k (Ok x))
  end.

(** The program throws nothing of its own: it can fail only by a
    rejected call, which ends it at once with the rejection as the error
    thrown. *)
Fixpoint relays {R} (p : Prog E R) : Prop :=
  match p with
  | Ret _ => True
  | Throw _ => False
  | Call _ k =>
      (forall e, k (Rejected e) = Throw e) /\ forall x, relays (k (Ok x))
  end.

(** The answer recorded in a log entry was a value. *)
Definition answered (e : Entry E) : bool :=
  match e with
  | entry _ (Ok _) => true
  | entry _ (Rejected _) => false
  end.

End Paths.

(** ** What the logs of the tool server show *)

Module ServerLog.

Import Server.

(** The tokens saved, with the account they were saved under. *)
Definition saved (log : list (Entry Event)) : list (string * TokenData) :=
  flat_map
    (fun e =>
       match e with
       | entry c _ =>
           match c with
           | saveToken email t => [(email, t)]
           | _ => []
           end
       end)
    log.



(** The call names no account but [email]. *)
Definition about (email : string) (e : Entry Event) : Prop :=
  match e with
  | entry c _ =>
      match c with
      | validateAccount email' _ _ | validateToken email' _
      | saveToken email' _ | removeAccount email' => email' = email
      | _ => True
      end
  end.

End ServerLog.

(** ** What the logs of the draft service show *)

Module DraftLog.

Import Draft.

(** The client a Gmail request was made on. *)
Definition request_client (e : Entry Event) : option GmailClient :=
  match e with
  | entry c _ =>
      match c with
      | drafts_create client _ _ | drafts_list client | drafts_get client _ _
      | drafts_update client _ _ | drafts_delete client _
      | drafts_send client _ => Some client
      | _ => None
      end
  end.

(** A Gmail request is made on the client the service holds. *)
Definition on_own_client (self : DraftService) (e : Entry Event) : Prop :=
  forall client, request_client e = Some client ->
                 gmailClient self = Some client.

(** A call that changes nothing: listing, getting, reading the clock. *)
Definition reads_only (e : Entry Event) : bool :=
  match e with
  | entry c _ =>
      match c with
      | drafts_list _ | drafts_get _ _ _ | Date_now | Date_toISOString => true
      | _ => false
      end
  end.

(** A call of the attachment service or of Drive. *)
Definition drive_call (e : Entry Event) : bool :=
  match e with
  | entry c _ =>
      match c with
      | processAttachment _ _ _ | downloadFile _ _ => true
      | _ => false
      end
  end.

(** The ids `drafts.get` was asked for, in order. *)
Definition got_ids (log : list (Entry Event)) : list string :=
  flat_map
    (fun e =>
       match e with
       | entry c _ => match c with drafts_get _ id _ => [id] | _ => [] end
       end)
    log.

(** The Gmail request is `drafts.create` with this thread id. *)
Definition creates_in (thread : option string) (e : Entry Event) : Prop :=
  match e with
  | entry c _ =>
      match c with
      | drafts_create _ _ t => t = thread
      | drafts_list _ | drafts_get _ _ _ | drafts_update _ _ _
      | drafts_delete _ _ | drafts_send _ _ => False
      | _ => True
      end
  end.

(** The Gmail request is `drafts.update` of this draft. *)
Definition updates (draftId : string) (e : Entry Event) : Prop :=
  match e with
  | entry c _ =>
      match c with
      | drafts_update _ id _ => id = draftId
      | drafts_create _ _ _ | drafts_list _ | drafts_get _ _ _
      | drafts_delete _ _ | drafts_send _ _ => False
      | _ => True
      end
  end.

(** The drafts `drafts.get` answered with, and the times the clock gave,
    in order. *)
Definition draft_of_entry (e : Entry Event) : list ApiDraft :=
  match e with
  | entry c o =>
      match c in Event X return Outcome X -> list ApiDraft with
      | drafts_get _ _ _ =>
          fun o => match o with Ok d => [d] | Rejected _ => [] end
      | _ => fun _ => []
      end o
  end.

Definition got_drafts (log : list (Entry Event)) : list ApiDraft :=
  flat_map draft_of_entry log.

Definition date_of_entry (e : Entry Event) : list string :=
  match e with
  | entry c o =>
      match c in Event X return Outcome X -> list string with
      | Date_toISOString =>
          fun o => match o with Ok t => [t] | Rejected _ => [] end
      | _ => fun _ => []
      end o
  end.

Definition iso_dates (log : list (Entry Event)) : list string :=
  flat_map date_of_entry log.


(** How an operation with one try around its whole body ends: with every
    call answered if it returns; and if it rejects, with its own message
    and code and, as resolution, the message of what its catch block
    caught, which is either the error of `ensureClient`, no call having
    been made, or the rejection of the last call made. *)
Definition ends_wrapped {R W} (self : DraftService) (msg cod : string)
    (outcome : Outcome R * W * list (Entry Event)) : Prop :=
  match outcome.1.1 with
  | Ok _ => Forall (fun e => answered e) outcome.2
  | Rejected err =>
      (gmailClient self = None /\ outcome.2 = [] /\
       err = GmailError msg cod (Some "Gmail client not initialized")) \/
      (exists l X (c : Event X) e,
         outcome.2 = l ++ [entry c (Rejected e)] /\
         Forall (fun e => answered e) l /\
         err = GmailError msg cod (Some (message_or_unknown e)))
  end.

(** The outcome, if it is a rejection, is the GmailError an operation's
    catch block makes: its message, its code, and as resolution the
    message of what was caught. *)
Definition fails_as {R} (msg cod : string) (o : Outcome R) : Prop :=
  match o with
  | Ok _ => True
  | Rejected e =>
      exists cause, e = GmailError msg cod (Some (message_or_unknown cause))
  end.

End DraftLog.

(** ** Start-up: `run` and the last lines of src/index.ts *)

Module Startup.

(** What `run` awaits and what it writes. *)
Inductive Event : Type -> Type :=
| console_error (text : string) (error : option Error) : Event unit
| initializeAccountModule : Event unit
| initializeGmailModule : Event unit
| initializeCalendarModule : Event unit
| connect : Event unit
| process_exit (code : Z) : Event unit.

(** `GSuiteServer.run` (lines 468-497).  Setting `onerror` and building
    the transport object call nothing. *)
Definition run_server : Prog Event unit :=
  try_catch
    (let* _ :=
       call (console_error "Initializing Google Workspace MCP server..." None)
     in
     let* _ := call initializeAccountModule in
     let* _ := call initializeGmailModule in
     let* _ := call initializeCalendarModule in
     try_catch
       (let* _ := call connect in
        call (console_error
                "Google Workspace MCP server running successfully" None))
       (fun error =>
          let* _ :=
            call (console_error "Failed to connect to transport:" (Some error))
          in
          Throw error))
    (fun error =>
       let* _ :=
         call (console_error "Failed to initialize server:" (Some error)) in
       Throw error).

(** `server.run().catch(...)` (lines 515-518).  The other caller of
    `process.exit`, the signal handler, is [on_signal] below. *)
Definition main : Prog Event unit :=
  try_catch run_server
    (fun error =>
       let* _ := call (console_error "Fatal server error:" (Some error)) in
       call (process_exit 1)).

(** The handler registered for SIGINT and for SIGTERM (lines 503-512),
    run when the signal arrives, whatever `main` is doing then. *)
Definition on_signal : Prog Event unit :=
  let* _ :=
    call (console_error "Shutting down Google Workspace MCP server..." None) in
  call (process_exit 0).

(** The start-up steps, as opposed to the writing of messages. *)
Definition is_step (e : Entry Event) : bool :=
  match e with
  | entry c _ =>
      match c with
      | initializeAccountModule | initializeGmailModule
      | initializeCalendarModule | connect => true
      | _ => false
      end
  end.

Definition is_exit (e : Entry Event) : bool :=
  match e with
  | entry c _ => match c with process_exit _ => true | _ => false end
  end.

(** The steps in the order `run` takes them. *)
Definition step_number (e : Entry Event) : nat :=
  match e with
  | entry c _ =>
      match c with
      | initializeAccountModule => 1
      | initializeGmailModule => 2
      | initializeCalendarModule => 3
      | connect => 4
      | _ => 0
      end
  end.

(** Surroundings in which writing a message never fails. *)
Definition console_works {W : Type}
    (answer : forall X, Event X -> W -> Outcome X * W) : Prop :=
  forall text error w, (answer _ (console_error text error) w).1 = Ok tt.

End Startup.

(** ** More surroundings *)

Module Scenario2.

Import Server Accounts Scenario.

(** The account's credential expired at 100, and its refresh token "r0"
    is one the authorization server no longer accepts. *)
Definition stale_state : State :=
  {| registry := [work_account];
     store :=
       {["a@x.com" := {| access_token := "at0"; refresh_token := Some "r0";
                         expiry_date := 100; scope := ["read"] |}]};
     clock := 200;
     pending := [];
     consumed := [] |}.


(** A mailbox with two drafts, of which "d2" cannot be got. *)
Definition mailbox (X : Type) (c : Draft.Event X) (w : nat) :
    Outcome X * nat :=
  match c in Draft.Event X return Outcome X * nat with
  | Draft.drafts_list _ =>
      (Ok {| Draft.api_drafts :=
               Some [ {| Draft.ref_id := "d1" |}; {| Draft.ref_id := "d2" |} ];
             Draft.api_nextPageToken := None;
             Draft.api_resultSizeEstimate := Some 2%Z |}, S w)
  | Draft.drafts_get _ id _ =>
      if String.eqb id "d2"
      then (Rejected (PlainError "Requested entity was not found."), S w)
      else (Ok {| Draft.api_id := Some id; Draft.api_message := None |}, S w)
  | c => drive _ c w
  end.


(** Surroundings in which processing the attachment "unprocessed" does
    not report a failure but throws. *)
Definition broken_drive (X : Type) (c : Draft.Event X) (w : nat) :
    Outcome X * nat :=
  match c in Draft.Event X return Outcome X * nat with
  | Draft.processAttachment email source folder =>
      if String.eqb (Draft.meta_name (Draft.src_metadata source)) "unprocessed"
      then (Rejected (PlainError "Upload to Drive failed"), S w)
      else drive _ (Draft.processAttachment email source folder) w
  | c => drive _ c w
  end.

(** A draft without attachments. *)
Definition plain_draft : Draft.DraftData :=
  {| Draft.to := ["b@x.com"]; Draft.subject := "s"; Draft.body := "hello";
     Draft.cc := None; Draft.bcc := None; Draft.threadId := Some "t1";
     Draft.attachments := None |}.

(** A start-up in which the Gmail module fails to initialize. *)
Definition boot (X : Type) (c : Startup.Event X) (w : nat) :
    Outcome X * nat :=
  match c in Startup.Event X return Outcome X * nat with
  | Startup.console_error _ _ => (Ok tt, S w)
  | Startup.initializeGmailModule =>
      (Rejected (PlainError "Gmail module failed"), S w)
  | Startup.initializeAccountModule | Startup.initializeCalendarModule
  | Startup.connect | Startup.process_exit _ => (Ok tt, S w)
  end.

End Scenario2.

(** * Properties *)

(** ** Running programs *)

Section RunLemmas.

Context {E : Type -> Type} {W : Type}.
Variable answer : forall X, E X -> W -> Outcome X * W.

Lemma run_call {X} (c : E X) (w : W) :
  run answer (call c) w =
  ((answer X c w).1, (answer X c w).2, [entry c (answer X c w).1]).
Proof.
  unfold call; simpl. destruct (answer X c w) as [o w1]; simpl.
  destruct o; reflexivity.
Qed.

Lemma run_bind {A B} (p : Prog E A) (f : A -> Prog E B) (w : W) :
  run answer (bind p f) w =
  match run answer p w with
  | (Ok a, w1, log1) =>
      let '(r, w2, log2) := run answer (f a) w1 in (r, w2, log1 ++ log2)
  | (Rejected e, w1, log1) => (Rejected e, w1, log1)
  end.
Proof.
  revert w. induction p as [a | e | X c k IH]; intros w; simpl.
  - destruct (run answer (f a) w) as [[r w2] log2]; reflexivity.
  - reflexivity.
  - destruct (answer X c w) as [o w1]. rewrite IH.
    destruct (run answer (k o) w1) as [[[a | e] w2] log1]; simpl.
    + destruct (run answer (f a) w2) as [[r w3] log2]; reflexivity.
    + reflexivity.
Qed.

Lemma run_try_catch {A} (p : Prog E A) (h : Error -> Prog E A) (w : W) :
  run answer (try_catch p h) w =
  match run answer p w with
  | (Ok a, w1, log1) => (Ok a, w1, log1)
  | (Rejected e, w1, log1) =>
      let '(r, w2, log2) := run answer (h e) w1 in (r, w2, log1 ++ log2)
  end.
Proof.
  revert w. induction p as [a | e | X c k IH]; intros w; simpl.
  - reflexivity.
  - destruct (run answer (h e) w) as [[r w2] log2]; reflexivity.
  - destruct (answer X c w) as [o w1]. rewrite IH.
    destruct (run answer (k o) w1) as [[[a | e] w2] log1]; simpl.
    + reflexivity.
    + destruct (run answer (h e) w2) as [[r w3] log2]; reflexivity.
Qed.

(** A program that has thrown makes no call at all, whatever surrounds it. *)
Lemma run_throw {R} (e : Error) (w : W) :
  run answer (Throw e : Prog E R) w = (Rejected e, w, []).
Proof. reflexivity. Qed.

End RunLemmas.

(** ** The use_google_account handler against any account manager *)

Section Handler.

Import Server.

Context {W : Type}.
Variable answer : forall X, Event X -> W -> Outcome X * W.

(** When the manager reports the token valid and hands it over, the handler
    answers at once: the log ends with `validateToken`. *)
Lemma use_account_valid (args : UseArgs) (w w1 w2 : W) (account : Account)
    (status : TokenStatus) (tok : TokenData) :
  answer _ (validateAccount (email args) (category args) (description args)) w
    = (Ok account, w1) ->
  answer _ (validateToken (email args) (required_scopes args)) w1
    = (Ok status, w2) ->
  valid status = true ->
  token status = Some tok ->
  run answer (callTool (use_google_account args)) w =
    (Ok authenticated_response, w2,
     [ entry (validateAccount (email args) (category args) (description args))
         (Ok account);
       entry (validateToken (email args) (required_scopes args)) (Ok status) ]).
Proof.
  intros Hacc Hval Hvalid Htok.
  unfold callTool, dispatch, use_account; simpl.
  rewrite Hacc; simpl. rewrite Hval; simpl.
  rewrite Hvalid, Htok; simpl. reflexivity.
Qed.

(** C1, amended.  When the manager reports the stored token as expired
    (not valid, token present, reason 'Token expired'), one call of the
    handler calls `refreshToken` with the token's refresh token.  If the
    refresh and then the save of the new token under the account are both
    answered, the response has status 'refreshing' and asks to retry, and
    these four calls are all it made; a repeated request for which the
    manager then reports the token valid with the token is answered that
    the account is authenticated.  If the refresh is rejected nothing is
    saved, and if the refresh or the save is rejected the response is the
    error response of that rejection. *)
Theorem expired_token_refreshed_and_retry_asked (args : UseArgs)
    (w w1 w2 : W) (account : Account) (status : TokenStatus)
    (tok : TokenData) :
  answer _ (validateAccount (email args) (category args) (description args)) w
    = (Ok account, w1) ->
  answer _ (validateToken (email args) (required_scopes args)) w1
    = (Ok status, w2) ->
  valid status = false ->
  token status = Some tok ->
  reason status = Some "Token expired" ->
  let registered :=
    entry (validateAccount (email args) (category args) (description args))
      (Ok account) in
  let checked :=
    entry (validateToken (email args) (required_scopes args)) (Ok status) in
  let failed e :=
    Ok {| content := error_json (formatErrorResponse e); isError := true |} in
  let r := run answer (callTool (use_google_account args)) w in
  match answer _ (refreshToken (refresh_token tok)) w2 with
  | (Rejected e, w3) =>
      r = (failed e, w3,
           [ registered; checked;
             entry (refreshToken (refresh_token tok)) (Rejected e) ])
  | (Ok newToken, w3) =>
      match answer _ (saveToken (email args) newToken) w3 with
      | (Rejected e, w4) =>
          r = (failed e, w4,
               [ registered; checked;
                 entry (refreshToken (refresh_token tok)) (Ok newToken);
                 entry (saveToken (email args) newToken) (Rejected e) ])
      | (Ok saved, w4) =>
          r = (Ok refreshing_response, w4,
               [ registered; checked;
                 entry (refreshToken (refresh_token tok)) (Ok newToken);
                 entry (saveToken (email args) newToken) (Ok saved) ]) /\
          forall account' w5 status' w6 tok',
            answer _ (validateAccount (email args) (category args)
                        (description args)) w4 = (Ok account', w5) ->
            answer _ (validateToken (email args) (required_scopes args)) w5
              = (Ok status', w6) ->
            valid status' = true ->
            token status' = Some tok' ->
            result_of (run answer (callTool (use_google_account args)) w4)
              = Ok authenticated_response
      end
  end.
Proof.
  intros Hacc Hval Hvalid Htok Hreason registered checked failed r.
  subst registered checked failed r.
  unfold callTool, dispatch, use_account; simpl.
  rewrite Hacc; simpl. rewrite Hval; simpl.
  rewrite Hvalid, Htok, Hreason; simpl.
  destruct (answer _ (refreshToken (refresh_token tok)) w2)
    as [[newToken | e] w3]; simpl; [| reflexivity].
  destruct (answer _ (saveToken (email args) newToken) w3)
    as [[saved | e] w4]; simpl; [| reflexivity].
  split; [reflexivity |].
  intros account' w5 status' w6 tok' Hacc' Hval' Hvalid' Htok'.
  fold (use_account args).
  change (result_of (run answer (callTool (use_google_account args)) w4)
          = Ok authenticated_response).
  rewrite (use_account_valid args w4 w5 w6 account' status' tok'
             Hacc' Hval' Hvalid' Htok').
  reflexivity.
Qed.

(** C2, amended.  When the token is not usable and not reported expired,
    and the request brings no authorization code, the handler asks a
    consent URL for exactly the scopes of the request, whatever the stored
    token was granted, and answers 'auth_required' with that URL. *)
Theorem authorize_requests_required_scopes_only (args : UseArgs)
    (w w1 w2 w3 : W) (account : Account) (status : TokenStatus)
    (authUrl : string) :
  answer _ (validateAccount (email args) (category args) (description args)) w
    = (Ok account, w1) ->
  answer _ (validateToken (email args) (required_scopes args)) w1
    = (Ok status, w2) ->
  valid status = false \/ token status = None ->
  token status = None \/ reason status <> Some "Token expired" ->
  nonempty (auth_code args) = None ->
  answer _ (generateAuthUrl (required_scopes args)) w2 = (Ok authUrl, w3) ->
  let r := run answer (callTool (use_google_account args)) w in
  result_of r = Ok (auth_required_response authUrl) /\
  world_of r = w3 /\
  requested_scopes (log_of r) = [required_scopes args].
Proof.
  intros Hacc Hval Hunusable Hnotexp Hcode Hurl.
  unfold callTool, dispatch, use_account; simpl.
  rewrite Hacc; simpl. rewrite Hval; simpl. rewrite Hcode.
  assert (Hcond : negb (valid status) || negb (defined (token status)) = true).
  { destruct Hunusable as [-> | ->]; simpl; [reflexivity | apply orb_true_r]. }
  rewrite Hcond.
  destruct (token status) as [tok |] eqn:Htok.
  - destruct Hnotexp as [? | Hne]; [discriminate |].
    rewrite bool_decide_eq_false_2 by exact Hne.
    simpl. rewrite Hurl; simpl. auto.
  - simpl. rewrite Hurl; simpl. auto.
Qed.

(** C4, amended.  One call of the handler that finds the token reported
    expired calls `refreshToken` exactly once, whether the refresh or the
    save that follows succeeds or not. *)
Theorem single_call_refreshes_once (args : UseArgs) (w w1 w2 : W)
    (account : Account) (status : TokenStatus) (tok : TokenData) :
  answer _ (validateAccount (email args) (category args) (description args)) w
    = (Ok account, w1) ->
  answer _ (validateToken (email args) (required_scopes args)) w1
    = (Ok status, w2) ->
  valid status = false ->
  token status = Some tok ->
  reason status = Some "Token expired" ->
  refresh_calls (log_of (run answer (callTool (use_google_account args)) w))
    = 1.
Proof.
  intros Hacc Hval Hvalid Htok Hreason.
  unfold callTool, dispatch, use_account; simpl.
  rewrite Hacc; simpl. rewrite Hval; simpl.
  rewrite Hvalid, Htok, Hreason; simpl.
  destruct (answer _ (refreshToken (refresh_token tok)) w2) as [[newToken | e] w3];
    simpl; [| reflexivity].
  destruct (answer _ (saveToken (email args) newToken) w3) as [[[] | e] w4];
    reflexivity.
Qed.

End Handler.

(** ** The handlers on the account manager of the specification *)

Section OnManager.

Import Server Accounts.

Variable srv : Surroundings.

Lemma register_store email category description st :
  store (register email category description st).2 = store st /\
  clock (register email category description st).2 = clock st.
Proof.
  unfold register. destruct (find (has_email email) (registry st)); auto.
Qed.

Lemma find_app_l {A} (f : A -> bool) (l1 l2 : list A) (x : A) :
  find f l1 = Some x -> find f (l1 ++ l2) = Some x.
Proof.
  induction l1 as [| y l1 IH]; simpl; [discriminate |].
  destruct (f y); auto.
Qed.

Lemma find_app_r {A} (f : A -> bool) (l1 l2 : list A) :
  find f l1 = None -> find f (l1 ++ l2) = find f l2.
Proof.
  induction l1 as [| y l1 IH]; simpl; [reflexivity |].
  destruct (f y); [discriminate | auto].
Qed.

(** After `register` the account is in the registry. *)
Lemma register_found email category description st :
  find (has_email email) (registry (register email category description st).2)
    = Some (register email category description st).1.
Proof.
  unfold register.
  destruct (find (has_email email) (registry st)) as [a |] eqn:Hfind; simpl.
  - exact Hfind.
  - rewrite find_app_r by exact Hfind. simpl.
    unfold has_email at 1; simpl. rewrite String.eqb_refl. reflexivity.
Qed.

(** Registering a known account changes nothing: the first registration
    stays. *)
Lemma register_known email category description st a :
  find (has_email email) (registry st) = Some a ->
  register email category description st = (a, st).
Proof. intros H. unfold register. rewrite H. reflexivity. Qed.

(** Everything the handler calls after `validateAccount` leaves the
    registry alone. *)
Lemma use_account_registry (args : UseArgs) (st : State) :
  registry (world_of (run (manager srv) (callTool (use_google_account args)) st))
  = registry (register (email args) (category args) (description args) st).2.
Proof.
  unfold callTool, dispatch, use_account; simpl.
  destruct (register (email args) (category args) (description args) st)
    as [a st1]; simpl.
  destruct (check_token (email args) (required_scopes args) st1)
    as [v [tok |] rsn]; destruct v; simpl;
    repeat match goal with
           | |- context [bool_decide ?P] => destruct (bool_decide P); simpl
           | |- context [nonempty ?x] => destruct (nonempty x); simpl
           | |- context [refresh ?s ?x] => destruct (refresh s x); simpl
           | |- context [exchangeCode ?s ?c ?x] =>
               unfold exchangeCode;
               destruct (exchange_endpoint s c); simpl
           end; reflexivity.
Qed.

(** C5.  Two use_google_account requests for the same account, the second
    with any other category and description: the second leaves the
    registry as the first left it, and an account that was new keeps the
    category and description of the first request. *)
Theorem register_first_registration_wins (email : string)
    (category1 description1 category2 description2 : option string)
    (scopes1 scopes2 : list string) (code1 code2 : option string)
    (st : State) :
  let first :=
    {| Server.email := email; category := category1;
       description := description1; required_scopes := scopes1;
       auth_code := code1 |} in
  let second :=
    {| Server.email := email; category := category2;
       description := description2; required_scopes := scopes2;
       auth_code := code2 |} in
  let st1 :=
    world_of (run (manager srv) (callTool (use_google_account first)) st) in
  let st2 :=
    world_of (run (manager srv) (callTool (use_google_account second)) st1) in
  registry st2 = registry st1 /\
  (find (has_email email) (registry st) = None ->
   find (has_email email) (registry st2) =
     Some {| account_email := email;
             account_category := category1;
             account_description := description1;
             account_created := clock st |}).
Proof.
  intros first second st1 st2.
  assert (Hreg1 : registry st1 = registry (register email category1 description1 st).2)
    by apply use_account_registry.
  assert (Hreg2 : registry st2 = registry (register email category2 description2 st1).2)
    by apply use_account_registry.
  assert (Hknown : find (has_email email) (registry st1)
                   = Some (register email category1 description1 st).1).
  { rewrite Hreg1. apply register_found. }
  assert (Hsame : registry st2 = registry st1).
  { rewrite Hreg2.
    rewrite (register_known _ _ _ _ _ Hknown). reflexivity. }
  split; [exact Hsame |].
  intros Hnew. rewrite Hsame, Hknown.
  unfold register. rewrite Hnew. reflexivity.
Qed.

(** C6.  If the stored credential's scopes include every required scope
    and its access token is not expired, the handler answers that the
    account is authenticated, calls neither `refreshToken` nor
    `getTokenFromCode`, and leaves the token store as it was. *)
Theorem valid_credential_needs_no_network (args : UseArgs) (st : State)
    (cred : TokenData) :
  store st !! email args = Some cred ->
  isSatisfied (scope cred) (required_scopes args) = true ->
  expired (clock st) cred = false ->
  let r := run (manager srv) (callTool (use_google_account args)) st in
  result_of r = Ok authenticated_response /\
  filter (fun e => network_call e) (log_of r) = [] /\
  store (world_of r) = store st.
Proof.
  intros Hcred Hscopes Hfresh r.
  pose (reg := register (email args) (category args) (description args) st).
  destruct (register_store (email args) (category args) (description args) st)
    as [Hstore Hclock].
  assert (Hrun : r =
    (Ok authenticated_response, reg.2,
     [ entry (validateAccount (email args) (category args) (description args))
         (Ok reg.1);
       entry (validateToken (email args) (required_scopes args))
         (Ok {| valid := true; token := Some cred; reason := None |}) ])).
  { apply use_account_valid with (tok := cred) (w1 := reg.2).
    - cbn [manager]. fold reg. destruct reg; reflexivity.
    - cbn [manager]. unfold check_token. subst reg.
      rewrite Hstore, Hcred, Hscopes, Hclock, Hfresh. reflexivity.
    - reflexivity.
    - reflexivity. }
  rewrite Hrun. repeat split. exact Hstore.
Qed.

(** C7.  After forget_google_account the manager's token check for the
    account answers not valid, without token, reason "no credential",
    whatever scopes are required, and list_google_accounts shows no entry
    for the account. *)
Theorem revoked_account_has_no_credential_and_is_not_listed
    (email : string) (scopes : list string) (st : State) :
  let forgotten := run (manager srv) (callTool (forget_google_account email)) st in
  let st' := world_of forgotten in
  result_of forgotten =
    Ok (text (status_json "success"
                ("Successfully removed account " +:+ email
                   +:+ " and deleted associated tokens"))) /\
  result_of (run (manager srv) (call (validateToken email scopes)) st') =
    Ok {| valid := false; token := None; reason := Some "no credential" |} /\
  exists accounts,
    result_of (run (manager srv) (callTool list_google_accounts) st') =
      Ok (text (accounts_json accounts)) /\
    Forall (fun i => account_email (info_account i) <> email) accounts.
Proof.
  intros forgotten st'. subst forgotten st'. simpl.
  split; [reflexivity |]. split.
  - unfold check_token, revoke; simpl. rewrite lookup_delete_eq. reflexivity.
  - eexists. split; [reflexivity |].
    unfold list_accounts, revoke; simpl.
    rewrite Forall_fmap. apply Forall_forall. intros a Ha; simpl.
    apply list_elem_of_filter in Ha as [Hne _].
    intros Heq. apply Hne. unfold has_email.
    rewrite Heq, String.eqb_refl. exact I.
Qed.

End OnManager.

(** ** The draft service *)

Section DraftService.

Import Draft.

Variable OUTGOING : string.
Variable base64 : string -> string.

Context {W : Type}.
Variable answer : forall X, Event X -> W -> Outcome X * W.

Lemma processed_in_app (l1 l2 : list (Entry Event)) :
  processed_in (l1 ++ l2) = processed_in l1 ++ processed_in l2.
Proof. apply flat_map_app. Qed.

Lemma processed_in_cons (e : Entry Event) (log : list (Entry Event)) :
  processed_in (e :: log) = kept_of_entry e ++ processed_in log.
Proof. reflexivity. Qed.

Lemma downloads_in_cons (e : Entry Event) (log : list (Entry Event)) :
  downloads_in (e :: log) = download_of_entry e ++ downloads_in log.
Proof. reflexivity. Qed.

Lemma raws_in_cons (e : Entry Event) (log : list (Entry Event)) :
  raws_in (e :: log) = raw_of_entry e ++ raws_in log.
Proof. reflexivity. Qed.

Lemma downloads_in_app (l1 l2 : list (Entry Event)) :
  downloads_in (l1 ++ l2) = downloads_in l1 ++ downloads_in l2.
Proof. apply flat_map_app. Qed.

Lemma raws_in_app (l1 l2 : list (Entry Event)) :
  raws_in (l1 ++ l2) = raws_in l1 ++ raws_in l2.
Proof. apply flat_map_app. Qed.

Lemma process_calls_app (l1 l2 : list (Entry Event)) :
  process_calls (l1 ++ l2) = process_calls l1 + process_calls l2.
Proof. unfold process_calls. rewrite filter_app, length_app. reflexivity. Qed.

(** The first loop: every attachment is handed to `processAttachment`, and
    the list grows by exactly those the answers report as processed. *)
Lemma run_process_loop (Hall : answers_all answer) (email : string)
    (atts : list DraftAttachment) :
  forall (acc : list Attachment) (w : W),
  exists w' log,
    run answer (process_loop OUTGOING email atts acc) w
      = (Ok (acc ++ processed_in log), w', log) /\
    process_calls log = length atts /\
    downloads_in log = [] /\ raws_in log = [].
Proof.
  induction atts as [| a rest IH]; intros acc w; simpl.
  - exists w, []. rewrite app_nil_r. auto.
  - destruct (answer _ (processAttachment email (attachment_source a) OUTGOING) w)
      as [o w1] eqn:Hans.
    destruct (Hall _ (processAttachment email (attachment_source a) OUTGOING) w)
      as [result Hres].
    rewrite Hans in Hres; simpl in Hres; subst o. simpl.
    assert (Hlog : forall log,
      process_calls log = length rest -> downloads_in log = [] ->
      raws_in log = [] ->
      let e := entry (processAttachment email (attachment_source a) OUTGOING)
                 (Ok result) in
      process_calls (e :: log) = S (length rest) /\
      downloads_in (e :: log) = [] /\ raws_in (e :: log) = []).
    { intros log Hcalls Hdl Hraw e.
      change (e :: log) with ([e] ++ log).
      rewrite process_calls_app, downloads_in_app, raws_in_app.
      rewrite Hcalls, Hdl, Hraw. auto. }
    destruct (proc_success result) eqn:Hsucc;
      [destruct (proc_attachment result) as [kept |] eqn:Hatt |].
    + destruct (IH (acc ++ [kept]) w1) as (w' & log & Hrun & Hcalls & Hdl & Hraw).
      rewrite Hrun.
      exists w', (entry (processAttachment email (attachment_source a) OUTGOING)
                    (Ok result) :: log).
      split; [| apply Hlog; assumption].
      f_equal. f_equal. f_equal.
      rewrite processed_in_cons. unfold kept_of_entry.
      rewrite Hsucc, Hatt. simpl. rewrite <- app_assoc. reflexivity.
    + destruct (IH acc w1) as (w' & log & Hrun & Hcalls & Hdl & Hraw).
      rewrite Hrun.
      exists w', (entry (processAttachment email (attachment_source a) OUTGOING)
                    (Ok result) :: log).
      split; [| apply Hlog; assumption].
      f_equal. f_equal. f_equal.
      rewrite processed_in_cons. unfold kept_of_entry.
      rewrite Hsucc, Hatt. reflexivity.
    + destruct (IH acc w1) as (w' & log & Hrun & Hcalls & Hdl & Hraw).
      rewrite Hrun.
      exists w', (entry (processAttachment email (attachment_source a) OUTGOING)
                    (Ok result) :: log).
      split; [| apply Hlog; assumption].
      f_equal. f_equal. f_equal.
      rewrite processed_in_cons. unfold kept_of_entry.
      rewrite Hsucc. reflexivity.
Qed.


(** The second loop: every processed attachment is downloaded, and the
    message grows by the parts of the downloads that succeeded. *)
Lemma run_download_loop (Hall : answers_all answer) (email boundary : string)
    (processed : list Attachment) :
  forall (parts : list string) (w : W),
  exists w' log,
    run answer (download_loop base64 email boundary processed parts) w
      = (Ok (parts ++ expected_parts base64 boundary processed
                        (downloads_in log)), w', log) /\
    length (downloads_in log) = length processed /\
    processed_in log = [] /\ raws_in log = [] /\ process_calls log = 0.
Proof.
  induction processed as [| a rest IH]; intros parts w; simpl.
  - exists w, []. rewrite app_nil_r. auto.
  - destruct (answer _ (downloadFile email (att_id a)) w) as [o w1] eqn:Hans.
    destruct (Hall _ (downloadFile email (att_id a)) w) as [file Hfile].
    rewrite Hans in Hfile; simpl in Hfile; subst o. simpl.
    assert (Hlog : forall log,
      length (downloads_in log) = length rest -> processed_in log = [] ->
      raws_in log = [] -> process_calls log = 0 ->
      let e := entry (downloadFile email (att_id a)) (Ok file) in
      length (downloads_in (e :: log)) = S (length rest) /\
      processed_in (e :: log) = [] /\ raws_in (e :: log) = [] /\
      process_calls (e :: log) = 0).
    { intros log Hlen Hkept Hraw Hcalls e.
      change (e :: log) with ([e] ++ log).
      rewrite process_calls_app, downloads_in_app, raws_in_app,
        processed_in_app.
      rewrite Hcalls, Hkept, Hraw, length_app, Hlen. auto. }
    destruct (dl_success file) eqn:Hsucc.
    + destruct (IH (parts ++ attachment_part base64 boundary a file) w1)
        as (w' & log & Hrun & Hrest).
      rewrite Hrun.
      exists w', (entry (downloadFile email (att_id a)) (Ok file) :: log).
      split; [| apply Hlog; tauto].
      f_equal. f_equal. f_equal.
      change (downloads_in (?e :: log)) with (file :: downloads_in log).
      unfold expected_parts; simpl. rewrite Hsucc.
      rewrite <- app_assoc. reflexivity.
    + destruct (IH parts w1) as (w' & log & Hrun & Hrest).
      rewrite Hrun.
      exists w', (entry (downloadFile email (att_id a)) (Ok file) :: log).
      split; [| apply Hlog; tauto].
      f_equal. f_equal. f_equal.
      change (downloads_in (?e :: log)) with (file :: downloads_in log).
      unfold expected_parts; simpl. rewrite Hsucc. reflexivity.
Qed.

Lemma run_build_message (Hall : answers_all answer) (email : string)
    (data : DraftData) (processed : list Attachment) (w : W) :
  exists w' log now,
    run answer (build_message base64 email data processed) w
      = (Ok (expected_message base64 now data processed (downloads_in log)),
         w', log) /\
    length (downloads_in log) = length processed /\
    processed_in log = [] /\ raws_in log = [] /\ process_calls log = 0.
Proof.
  unfold build_message. rewrite run_bind, run_call.
  destruct (answer _ Date_now w) as [o w1] eqn:Hans.
  destruct (Hall _ Date_now w) as [now Hnow].
  rewrite Hans in Hnow; simpl in Hnow; subst o. cbn [fst snd].
  rewrite run_bind.
  destruct (run_download_loop Hall email ("boundary_" +:+ pretty now) processed
              (head_parts ("boundary_" +:+ pretty now) data) w1)
    as (w' & log & Hrun & Hlen & Hkept & Hraw & Hcalls).
  rewrite Hrun. cbn [run].
  exists w', ([entry Date_now (Ok now)] ++ log ++ []), now.
  split; [| rewrite app_nil_r; simpl; auto].
  rewrite app_nil_r. unfold expected_message.
  rewrite <- app_assoc. reflexivity.
Qed.

(** The body shared by `createDraft` and `updateDraft`, for either way
    `send` of handing the raw message to the Gmail API. *)
Lemma run_draft_body (Hall : answers_all answer) (email : string)
    (data : DraftData) (send : string -> Event ApiDraft) (msg cod : string)
    (w : W) :
  (forall raw o, raw_of_entry (entry (send raw) o) = [raw]) ->
  (forall raw o, kept_of_entry (entry (send raw) o) = []) ->
  (forall raw o, download_of_entry (entry (send raw) o) = []) ->
  (forall raw o, is_process (entry (send raw) o) = false) ->
  dropped_silently base64 data
    (run answer
       (wrap msg cod
          (let* processedAttachments :=
             processAttachments OUTGOING email (attachments data) in
           let* fullMessage :=
             build_message base64 email data processedAttachments in
           let* draft := call (send (base64 fullMessage)) in
           let* updated := call Date_toISOString in
           Ret (draft_result draft updated processedAttachments))) w).
Proof.
  intros Hsend_raw Hsend_kept Hsend_dl Hsend_proc.
  assert (Hfirst : exists w1 log1,
    run answer (processAttachments OUTGOING email (attachments data)) w
      = (Ok (processed_in log1), w1, log1) /\
    process_calls log1 = length (default [] (attachments data)) /\
    downloads_in log1 = [] /\ raws_in log1 = []).
  { unfold processAttachments. destruct (attachments data) as [atts |]; simpl.
    - destruct (run_process_loop Hall email atts [] w) as (w1 & log1 & H).
      exists w1, log1. exact H.
    - exists w, []. auto. }
  destruct Hfirst as (w1 & log1 & Hrun1 & Hcalls1 & Hdl1 & Hraw1).
  destruct (run_build_message Hall email data (processed_in log1) w1)
    as (w2 & log2 & now & Hrun2 & Hlen2 & Hkept2 & Hraw2 & Hcalls2).
  set (full := expected_message base64 now data (processed_in log1)
                 (downloads_in log2)) in *.
  destruct (answer _ (send (base64 full)) w2) as [o3 w3] eqn:Hans3.
  destruct (Hall _ (send (base64 full)) w2) as [draft Hdraft].
  rewrite Hans3 in Hdraft; simpl in Hdraft; subst o3.
  destruct (answer _ Date_toISOString w3) as [o4 w4] eqn:Hans4.
  destruct (Hall _ Date_toISOString w3) as [updated Hupdated].
  rewrite Hans4 in Hupdated; simpl in Hupdated; subst o4.
  unfold wrap. rewrite run_try_catch, run_bind, Hrun1, run_bind, Hrun2.
  rewrite run_bind, run_call, Hans3. cbn [fst snd].
  rewrite run_bind, run_call, Hans4. cbn [fst snd run].
  exists (draft_result draft updated (processed_in log1)), w4,
    (log1 ++ log2 ++ [entry (send (base64 full)) (Ok draft)]
       ++ [entry Date_toISOString (Ok updated)] ++ []), now.
  assert (Hkept : processed_in
            (log1 ++ log2 ++ [entry (send (base64 full)) (Ok draft)]
               ++ [entry Date_toISOString (Ok updated)] ++ [])
          = processed_in log1).
  { rewrite !processed_in_app, Hkept2, !processed_in_cons, Hsend_kept.
    simpl. rewrite app_nil_r. reflexivity. }
  assert (Hdl : downloads_in
            (log1 ++ log2 ++ [entry (send (base64 full)) (Ok draft)]
               ++ [entry Date_toISOString (Ok updated)] ++ [])
          = downloads_in log2).
  { rewrite !downloads_in_app, Hdl1, !downloads_in_cons, Hsend_dl.
    simpl. rewrite app_nil_r. reflexivity. }
  rewrite Hkept, Hdl.
  split; [reflexivity |]. split; [| split; [| split]].
  - rewrite !process_calls_app, Hcalls1, Hcalls2.
    unfold process_calls. rewrite filter_cons, Hsend_proc. simpl. lia.
  - reflexivity.
  - exact Hlen2.
  - rewrite !raws_in_app, Hraw1, Hraw2, !raws_in_cons, Hsend_raw.
    reflexivity.
Qed.

(** With a client set and surroundings that answer every call, both
    `createDraft` and `updateDraft` succeed whatever the attachment and
    Drive services report: the result lists exactly the attachments whose
    processing was reported as a success, and the message sent has parts
    only for those of them whose download succeeded. *)
Lemma reported_failures_are_dropped (self : DraftService)
    (client : GmailClient) (email draftId : string) (data : DraftData)
    (w : W) :
  gmailClient self = Some client ->
  answers_all answer ->
  dropped_silently base64 data
    (run answer (createDraft OUTGOING base64 self email data) w) /\
  dropped_silently base64 data
    (run answer (updateDraft OUTGOING base64 self email draftId data) w).
Proof.
  intros Hclient Hall.
  unfold createDraft, updateDraft, ensureClient. rewrite Hclient.
  split.
  - apply (run_draft_body Hall email data
             (fun raw => drafts_create client raw (threadId data)));
      reflexivity.
  - apply (run_draft_body Hall email data
             (fun raw => drafts_update client draftId raw));
      reflexivity.
Qed.

(** C8, as the code has it.  Without a client each of the six operations
    fails before any call is made, but with the code of its own catch
    block, not CLIENT_ERROR: the error of `ensureClient` is thrown inside
    the `try` and replaced, its message kept as the resolution. *)
Theorem unset_client_error_is_rewrapped (email draftId : string)
    (data : DraftData) (w : W) :
  run answer (createDraft OUTGOING base64 new_DraftService email data) w
    = (Rejected (GmailError "Failed to create draft" "CREATE_ERROR"
                   (Some "Gmail client not initialized")), w, []) /\
  run answer (listDrafts new_DraftService email) w
    = (Rejected (GmailError "Failed to list drafts" "LIST_ERROR"
                   (Some "Gmail client not initialized")), w, []) /\
  run answer (getDraft new_DraftService email draftId) w
    = (Rejected (GmailError "Failed to get draft" "GET_ERROR"
                   (Some "Gmail client not initialized")), w, []) /\
  run answer (updateDraft OUTGOING base64 new_DraftService email draftId data) w
    = (Rejected (GmailError "Failed to update draft" "UPDATE_ERROR"
                   (Some "Gmail client not initialized")), w, []) /\
  run answer (deleteDraft new_DraftService email draftId) w
    = (Rejected (GmailError "Failed to delete draft" "DELETE_ERROR"
                   (Some "Gmail client not initialized")), w, []) /\
  run answer (sendDraft new_DraftService email draftId) w
    = (Rejected (GmailError "Failed to send draft" "SEND_ERROR"
                   (Some "Gmail client not initialized")), w, []).
Proof. repeat apply conj; reflexivity. Qed.


End DraftService.

(** ** Failure responses of the tool handler *)

Section ToolErrors.

Import Server.

Context {W : Type}.
Variable answer : forall X, Event X -> W -> Outcome X * W.

(** The handler never rejects: what the switch throws comes back as a
    response. *)
Lemma callTool_answers (request : ToolRequest) (w : W) :
  exists r, result_of (run answer (callTool request) w) = Ok r.
Proof.
  unfold callTool. rewrite run_try_catch.
  destruct (run answer (dispatch request) w) as [[[r | e] w1] log1]; simpl.
  - exists r. reflexivity.
  - eexists. reflexivity.
Qed.

(** C3, amended.  A tool call whose body throws is answered with an error
    response made from the thrown error alone: status 'error', the error's
    message (or 'Unknown error occurred' if the thrown value is no Error),
    and as resolution the error's own for the three module error classes,
    the one fixed sentence for every other error.  The response has no
    field beside these three, so none for the error's code. *)
Theorem failure_response_has_message_and_resolution (request : ToolRequest)
    (w w' : W) (e : Error) (log : list (Entry Event)) :
  run answer (dispatch request) w = (Rejected e, w', log) ->
  exists r,
    run answer (callTool request) w
      = (Ok {| content := error_json r; isError := true |}, w', log) /\
    err_status r = "error" /\
    err_error r
      = (if instanceofError e then message e else "Unknown error occurred") /\
    err_resolution r
      = (if instanceofModuleError e then resolution e
         else Some "Please try again or contact support if the issue persists")
    /\
    Forall (fun field => field.1 ∈ ["status"; "error"; "resolution"])
      (json_fields (error_json r)).
Proof.
  intros Hthrown. exists (formatErrorResponse e).
  split.
  - unfold callTool. rewrite run_try_catch, Hthrown. simpl.
    rewrite app_nil_r. reflexivity.
  - unfold formatErrorResponse, instanceofModuleError, instanceofError.
    destruct (class e); simpl; repeat apply conj; try reflexivity;
      try (destruct (resolution e); simpl);
      repeat (apply Forall_cons_2; [simpl; set_solver |]);
      apply Forall_nil_2.
Qed.

End ToolErrors.

(** ** Concrete runs *)

Section ConcreteRuns.

Import Server Accounts Scenario.

(** C1, as stated, fails.  The account holds a credential that expired at
    100 (it is 200) with the refresh token "r1", which the server renews.
    The handler's answer is not the one of a valid account: it has status
    'refreshing', carries no credential, and asks the caller to retry. *)
Lemma refresh_answers_with_retry_request :
  let st := state_at 200 in
  let r :=
    run (manager srv) (callTool (use_google_account (request_for ["read"]))) st
  in
  store st !! "a@x.com" = Some read_token /\
  expired (clock st) read_token = true /\
  refresh_token read_token = Some "r1" /\
  result_of r = Ok refreshing_response /\
  result_of r <> Ok authenticated_response /\
  json_fields (content refreshing_response) =
    [ ("status", "refreshing");
      ("message", "Token refreshed successfully, please retry the request") ].
Proof.
  repeat apply conj; try reflexivity.
  intros H. vm_compute in H. discriminate H.
Qed.

Lemma expired_token_refreshed_and_retry_asked_witness :
  let renewed :=
    {| access_token := "at2"; refresh_token := Some "r1";
       expiry_date := 3800; scope := ["read"] |} in
  let request := callTool (use_google_account (request_for ["read"])) in
  let refreshed :=
    set_store (<["a@x.com" := renewed]> (store (state_at 200))) (state_at 200)
  in
  run (manager srv) request (state_at 200)
  = (Ok refreshing_response, refreshed,
     [ entry (validateAccount "a@x.com" None None) (Ok work_account);
       entry (validateToken "a@x.com" ["read"])
         (Ok {| valid := false; token := Some read_token;
                reason := Some "Token expired" |});
       entry (refreshToken (Some "r1")) (Ok renewed);
       entry (saveToken "a@x.com" renewed) (Ok tt) ]) /\
  result_of (run (manager srv) request refreshed) = Ok authenticated_response.
Proof.
  intros renewed request refreshed.
  pose proof (expired_token_refreshed_and_retry_asked (manager srv)
                (request_for ["read"]) (state_at 200) (state_at 200)
                (state_at 200) work_account
                {| valid := false; token := Some read_token;
                   reason := Some "Token expired" |}
                read_token eq_refl eq_refl eq_refl eq_refl eq_refl)
    as [Hfirst Hretry].
  split; [exact Hfirst |].
  apply (Hretry work_account refreshed
           {| valid := true; token := Some renewed; reason := None |}
           refreshed renewed); reflexivity.
Defined.

(** C2, as stated, fails.  The account holds a fresh credential granted
    `read`; a request that requires `write` makes the handler ask a
    consent URL for `write` alone: `read` is in no scope list requested. *)
Lemma authorize_requests_new_scopes_alone :
  let st := state_at 50 in
  let r :=
    run (manager srv) (callTool (use_google_account (request_for ["write"]))) st
  in
  scope <$> store st !! "a@x.com" = Some ["read"] /\
  expired (clock st) read_token = false /\
  requested_scopes (log_of r) = [["write"]] /\
  ~ Exists (fun scopes => "read" ∈ scopes) (requested_scopes (log_of r)).
Proof.
  repeat apply conj; try reflexivity.
  change (requested_scopes _) with [["write"]].
  rewrite Exists_cons, Exists_nil. intros [H | []].
  apply list_elem_of_singleton in H. discriminate H.
Qed.

Lemma authorize_requests_required_scopes_only_witness :
  let r :=
    run (manager srv) (callTool (use_google_account (request_for ["write"])))
      (state_at 50) in
  result_of r
    = Ok (auth_required_response "https://auth.example/consent?scope=write") /\
  world_of r = set_pending [["write"]] (state_at 50) /\
  requested_scopes (log_of r) = [["write"]].
Proof.
  apply (authorize_requests_required_scopes_only (manager srv)
           (request_for ["write"]) (state_at 50) (state_at 50) (state_at 50)
           (set_pending [["write"]] (state_at 50)) work_account
           {| valid := false; token := Some read_token;
              reason := Some "insufficient scope" |}
           "https://auth.example/consent?scope=write").
  - reflexivity.
  - reflexivity.
  - left. reflexivity.
  - right. discriminate.
  - reflexivity.
  - reflexivity.
Defined.

(** C4, as stated, fails for N = 2.  Two invocations for the same account
    are in flight: both ask for the token status and are told it expired,
    then both refresh, then both save.  Both run to their end, and
    `refreshToken` was called twice. *)
Lemma two_calls_in_flight_refresh_twice :
  let st := state_at 200 in
  let request := callTool (use_google_account (request_for ["read"])) in
  let r := interleave (manager srv) [0; 0; 1; 1; 0; 1; 0; 1]
             [request; request] st in
  expired (clock st) read_token = true /\
  refresh_endpoint srv "r1" = Renewed "at2" 3800 ["read"] /\
  forallb finished r.1.1 = true /\
  refresh_calls (r.2.*2) = 2.
Proof. repeat apply conj; reflexivity. Qed.

Lemma single_call_refreshes_once_witness :
  refresh_calls
    (log_of (run (manager srv)
               (callTool (use_google_account (request_for ["read"])))
               (state_at 200))) = 1.
Proof.
  apply (single_call_refreshes_once (manager srv) (request_for ["read"])
           (state_at 200) (state_at 200) (state_at 200) work_account
           {| valid := false; token := Some read_token;
              reason := Some "Token expired" |}
           read_token); reflexivity.
Defined.

Lemma register_first_registration_wins_witness :
  let first :=
    {| email := "a@x.com"; category := Some "work"; description := None;
       required_scopes := ["read"]; auth_code := None |} in
  let st1 :=
    world_of (run (manager srv) (callTool (use_google_account first))
                empty_state) in
  let st2 :=
    world_of (run (manager srv) (callTool (use_google_account personal_request))
                st1) in
  find (has_email "a@x.com") (registry st2) = Some work_account.
Proof.
  apply (register_first_registration_wins srv "a@x.com" (Some "work") None
           (Some "personal") (Some "second registration") ["read"] ["read"]
           None None empty_state).
  reflexivity.
Defined.

Lemma valid_credential_needs_no_network_witness :
  let r :=
    run (manager srv) (callTool (use_google_account (request_for ["read"])))
      (state_at 50) in
  result_of r = Ok authenticated_response /\
  filter (fun e => network_call e) (log_of r) = [] /\
  store (world_of r) = store (state_at 50).
Proof.
  apply (valid_credential_needs_no_network srv (request_for ["read"])
           (state_at 50) read_token); reflexivity.
Defined.

(** C3, as stated, fails.  `manageDraft` with action 'create' and no data
    throws a GmailError of code INVALID_PARAMS without a resolution: the
    response made from it has two fields, none holding the code and none
    a resolution.  The error `createDraft` throws without a client has a
    resolution, and still no field of its response holds its code. *)
Lemma failure_response_names_no_kind :
  let e1 :=
    GmailError "Draft data is required for create action" "INVALID_PARAMS"
      None in
  let e2 :=
    GmailError "Failed to create draft" "CREATE_ERROR"
      (Some "Gmail client not initialized") in
  Draft.manageDraft OUTGOING base64 Draft.new_DraftService no_data_create
    = Throw e1 /\
  json_fields (error_json (formatErrorResponse e1))
    = [ ("status", "error");
        ("error", "Draft data is required for create action") ] /\
  ~ names_kind e1 (formatErrorResponse e1) /\
  ~ names_next_action (formatErrorResponse e1) /\
  Draft.createDraft OUTGOING base64 Draft.new_DraftService "a@x.com" draft_data
    = Throw e2 /\
  ~ names_kind e2 (formatErrorResponse e2).
Proof.
  repeat apply conj; try reflexivity.
  - intros (k & c & Hc & Hin). injection Hc as <-.
    cbn in Hin.
    repeat (apply elem_of_cons in Hin as [Hin | Hin]; [discriminate Hin |]).
    inversion Hin.
  - intros [x Hx]. discriminate Hx.
  - intros (k & c & Hc & Hin). injection Hc as <-.
    cbn in Hin.
    repeat (apply elem_of_cons in Hin as [Hin | Hin]; [discriminate Hin |]).
    inversion Hin.
Qed.

Lemma failure_response_has_message_and_resolution_witness :
  exists r,
    run (manager srv) (callTool (unknown_tool "x")) empty_state
      = (Ok {| content := error_json r; isError := true |}, empty_state, []) /\
    err_status r = "error" /\
    err_error r = "Unknown tool: x" /\
    err_resolution r
      = Some "Please try again or contact support if the issue persists" /\
    Forall (fun field => field.1 ∈ ["status"; "error"; "resolution"])
      (json_fields (error_json r)).
Proof.
  apply (failure_response_has_message_and_resolution (manager srv)
           (unknown_tool "x") empty_state empty_state
           (PlainError "Unknown tool: x") []).
  reflexivity.
Defined.

Lemma drive_answers_all : Draft.answers_all drive.
Proof. intros X c w. destruct c; eexists; reflexivity. Defined.

End ConcreteRuns.

(** * Further properties *)

(** ** Paths and runs *)

Section PathLemmas.

Context {E : Type -> Type} {W : Type}.
Variable answer : forall X, E X -> W -> Outcome X * W.

Lemma always_run {R} (P : Entry E -> Prop) (p : Prog E R) :
  always P p -> forall w, Forall P (log_of (run answer p w)).
Proof.
  induction p as [r | e | X c k IH]; intros Hp w; simpl.
  - constructor.
  - constructor.
  - destruct (answer X c w) as [o w1].
    destruct (Hp o) as [Hc Hk]. specialize (IH o Hk w1).
    destruct (run answer (k o) w1) as [[r w2] log].
    constructor; assumption.
Qed.

Lemma always_mono {R} (P Q : Entry E -> Prop) (p : Prog E R) :
  (forall e, P e -> Q e) -> always P p -> always Q p.
Proof.
  intros HPQ. induction p as [r | e | X c k IH]; simpl; auto.
  intros Hp o. destruct (Hp o). auto.
Qed.

Lemma always_bind {A B} (P : Entry E -> Prop) (p : Prog E A)
    (f : A -> Prog E B) :
  always P p -> (forall a, always P (f a)) -> always P (bind p f).
Proof.
  intros Hp Hf. induction p as [r | e | X c k IH]; simpl; auto.
  intros o. destruct (Hp o). auto.
Qed.

Lemma always_try_catch {A} (P : Entry E -> Prop) (p : Prog E A)
    (h : Error -> Prog E A) :
  always P p -> (forall e, always P (h e)) -> always P (try_catch p h).
Proof.
  intros Hp Hh. induction p as [r | e | X c k IH]; simpl; auto.
  intros o. destruct (Hp o). auto.
Qed.

Lemma always_call {X} (P : Entry E -> Prop) (c : E X) :
  (forall o, P (entry c o)) -> always P (call c).
Proof. intros Hc o. split; [apply Hc | destruct o; exact I]. Qed.

Lemma always_promise_all {R} (P : Entry E -> Prop) (ps : list (Prog E R)) :
  Forall (always P) ps -> always P (promise_all ps).
Proof.
  intros Hps. unfold promise_all. apply always_bind.
  - induction Hps as [| p ps Hp _ IH]; simpl; [exact I |].
    apply always_bind.
    + unfold settle. apply always_try_catch; [| intros; exact I].
      apply always_bind; [exact Hp | intros; exact I].
    + intros o. apply always_bind; [exact IH | intros; exact I].
  - intros os. destruct (collect os); exact I.
Qed.

Lemma at_most_run {R} (P : Entry E -> bool) (n : nat) (p : Prog E R) :
  at_most P n p ->
  forall w, length (filter (fun e => P e) (log_of (run answer p w))) <= n.
Proof.
  revert n. induction p as [r | e | X c k IH]; intros n Hp w; simpl.
  - lia.
  - lia.
  - destruct (answer X c w) as [o w1]. specialize (Hp o).
    destruct (run answer (k o) w1) as [[r w2] log] eqn:Hrun.
    unfold log_of; simpl.
    destruct (P (entry c o)) eqn:HP.
    + destruct n as [| m]; [contradiction |].
      specialize (IH o m Hp w1). rewrite Hrun in IH. unfold log_of in IH.
      simpl in IH.
      rewrite filter_cons_True by (simpl; rewrite HP; exact I).
      simpl. lia.
    + specialize (IH o n Hp w1). rewrite Hrun in IH. unfold log_of in IH.
      simpl in IH.
      rewrite filter_cons_False by (simpl; rewrite HP; exact id).
      exact IH.
Qed.

Lemma at_most_mono {R} (P : Entry E -> bool) (n m : nat) (p : Prog E R) :
  n <= m -> at_most P n p -> at_most P m p.
Proof.
  revert n m. induction p as [r | e | X c k IH]; intros n m Hnm Hp; simpl;
    auto.
  intros o. specialize (Hp o). destruct (P (entry c o)).
  - destruct n as [| n']; [contradiction |].
    destruct m as [| m']; [lia |]. apply (IH o n' m'); [lia | exact Hp].
  - apply (IH o n m); assumption.
Qed.

Lemma returns_run {R} (Q : R -> Prop) (p : Prog E R) :
  returns Q p ->
  forall w r, result_of (run answer p w) = Ok r -> Q r.
Proof.
  induction p as [r0 | e | X c k IH]; intros Hp w r; simpl.
  - intros [= <-]. exact Hp.
  - discriminate.
  - destruct (answer X c w) as [o w1].
    specialize (IH o (Hp o) w1 r).
    destruct (run answer (k o) w1) as [[r1 w2] log]. exact IH.
Qed.

(** When a program that rethrows is run, the rejected call, if any, is its
    last call and its error is the outcome. *)
Lemma rethrows_run {R} (p : Prog E R) :
  rethrows p ->
  forall w l1 X (c : E X) e l2,
    log_of (run answer p w) = l1 ++ entry c (Rejected e) :: l2 ->
    l2 = [] /\ result_of (run answer p w) = Rejected e.
Proof.
  induction p as [r | e0 | Y c0 k IH]; intros Hp w l1 X c e l2; simpl.
  - destruct l1; discriminate.
  - destruct l1; discriminate.
  - destruct Hp as [Hrej Hok].
    destruct (answer Y c0 w) as [o w1]. destruct o as [x | e1].
    + specialize (IH (Ok x) (Hok x) w1).
      destruct (run answer (k (Ok x)) w1) as [[r w2] log].
      unfold log_of, result_of in *; simpl in *.
      destruct l1 as [| e' l1]; simpl; intros Hlog.
      * discriminate Hlog.
      * injection Hlog as _ Hlog. exact (IH l1 X c e l2 Hlog).
    + rewrite Hrej. unfold log_of, result_of; simpl.
      destruct l1 as [| e' l1]; simpl; intros Hlog.
      * pose (rejection := fun x : Entry E =>
                  match x with
                  | entry _ (Rejected err) => Some err
                  | entry _ (Ok _) => None
                  end).
        assert (Htail : @nil (Entry E) = l2)
          by exact (f_equal (fun l => tail l) Hlog).
        assert (Hhead : Some e1 = Some e)
          by exact (f_equal (fun l => match l with
                                      | x :: _ => rejection x
                                      | [] => None
                                      end) Hlog).
        injection Hhead as ->. auto.
      * injection Hlog as _ Hlog. destruct l1; discriminate Hlog.
Qed.

End PathLemmas.

(** ** The tool handler on every path *)

Section HandlerPaths.

Import Server ServerLog.

Context {W : Type}.
Variable answer : forall X, Event X -> W -> Outcome X * W.

Ltac walk :=
  repeat first
    [ exact I
    | reflexivity
    | progress simpl
    | intros [? | ?]
    | split
    | match goal with
      | |- context [valid ?s] => destruct (valid s)
      | |- context [token ?s] => destruct (token s)
      | |- context [bool_decide ?P] => destruct (bool_decide P)
      | |- context [nonempty ?c] => destruct (nonempty c)
      end ].

Lemma dispatch_returns_plain (request : ToolRequest) :
  returns (fun r => isError r = false) (dispatch request).
Proof. destruct request; unfold dispatch, use_account, forget_account; walk. Qed.

Lemma dispatch_rethrows (request : ToolRequest) :
  rethrows (dispatch request).
Proof.
  destruct request; unfold dispatch, use_account, forget_account; simpl;
    repeat first
      [ exact I
      | split
      | intros ?; reflexivity
      | intros ?; simpl
      | match goal with
        | |- context [valid ?s] => destruct (valid s); simpl
        | |- context [token ?s] => destruct (token s); simpl
        | |- context [bool_decide ?P] => destruct (bool_decide P); simpl
        | |- context [nonempty ?c] => destruct (nonempty c); simpl
        end ].
Qed.

Lemma callTool_run (request : ToolRequest) (w : W) :
  run answer (callTool request) w =
  match run answer (dispatch request) w with
  | (Ok r, w', log) => (Ok r, w', log)
  | (Rejected e, w', log) =>
      (Ok {| content := error_json (formatErrorResponse e); isError := true |},
       w', log)
  end.
Proof.
  unfold callTool. rewrite run_try_catch.
  destruct (run answer (dispatch request) w) as [[[r | e] w'] log]; simpl.
  - reflexivity.
  - rewrite app_nil_r. reflexivity.
Qed.

(** X1.  A tool call never rejects.  It makes the calls of its body and
    no other; what the body returns is passed on with isError unset, and
    what the body throws becomes an error response with isError set. *)
Theorem tool_call_always_answers (request : ToolRequest) (w : W) :
  let body := run answer (dispatch request) w in
  let r := run answer (callTool request) w in
  world_of r = world_of body /\
  log_of r = log_of body /\
  match result_of body with
  | Ok response => result_of r = Ok response /\ isError response = false
  | Rejected e =>
      result_of r =
        Ok {| content := error_json (formatErrorResponse e); isError := true |}
  end.
Proof.
  intros body r. subst r. rewrite callTool_run.
  pose proof (returns_run answer _ _ (dispatch_returns_plain request) w)
    as Hplain.
  fold body in Hplain |- *.
  destruct body as [[[response | e] w'] log]; simpl; auto.
Qed.

(** X2.  The handler stops at the first call that is rejected: a rejected
    call is the last call of the request, and the response is the error
    response made from that very rejection. *)
Theorem first_rejection_is_reported (request : ToolRequest) (w : W)
    (l1 l2 : list (Entry Event)) (X : Type) (c : Event X) (e : Error) :
  log_of (run answer (callTool request) w) = l1 ++ entry c (Rejected e) :: l2 ->
  l2 = [] /\
  result_of (run answer (callTool request) w) =
    Ok {| content := error_json (formatErrorResponse e); isError := true |}.
Proof.
  rewrite callTool_run.
  pose proof (rethrows_run answer _ (dispatch_rethrows request) w l1 X c e l2)
    as Hbody.
  destruct (run answer (dispatch request) w) as [[[r | e'] w'] log];
    unfold log_of, result_of in *; simpl in *; intros Hlog;
    destruct (Hbody Hlog) as [Hlast Hthrown]; [discriminate |].
  injection Hthrown as ->. auto.
Qed.

(** X3.  One request makes at most one call that reaches the
    authorization server: it never both refreshes and exchanges a code,
    and does neither twice. *)
Theorem at_most_one_network_call (request : ToolRequest) (w : W) :
  length (filter (fun e => network_call e)
            (log_of (run answer (callTool request) w))) <= 1.
Proof.
  apply at_most_run.
  destruct request; unfold callTool, dispatch, use_account, forget_account;
    walk.
Qed.

(** X4.  A use_google_account request names no account but its own: every
    `validateAccount`, `validateToken` and `saveToken` it makes is for the
    email of the request; and forget_google_account removes the account it
    was given and calls nothing else about any other. *)
Theorem request_touches_only_its_account (args : UseArgs) (email' : string)
    (w : W) :
  Forall (about (email args))
    (log_of (run answer (callTool (use_google_account args)) w)) /\
  Forall (about email')
    (log_of (run answer (callTool (forget_google_account email')) w)).
Proof.
  split; apply always_run;
    unfold callTool, dispatch, use_account, forget_account; walk.
Qed.

End HandlerPaths.

(** ** Tokens saved by the handler *)

Section SavedTokens.

Import Server ServerLog.

Context {W : Type}.
Variable answer : forall X, Event X -> W -> Outcome X * W.



End SavedTokens.

(** ** Invocations in flight together *)

Section InFlight.

Context {E : Type -> Type} {W : Type}.
Variable answer : forall X, E X -> W -> Outcome X * W.

Lemma sum_list_insert (ns : list nat) (i n m : nat) :
  ns !! i = Some n -> sum_list (<[i := m]> ns) + n = sum_list ns + m.
Proof.
  revert i. induction ns as [| x ns IH]; intros i Hi; [discriminate |].
  destruct i as [| i]; simpl in *.
  - injection Hi as ->. lia.
  - specialize (IH i Hi). lia.
Qed.

(** If each invocation makes at most its number of calls that pass [P],
    all of them together, however they take turns, make at most the sum. *)
Lemma interleave_at_most {R} (P : Entry E -> bool) (schedule : list nat) :
  forall (threads : list (Prog E R)) (ns : list nat) (w : W),
    Forall2 (fun p n => at_most P n p) threads ns ->
    length (filter (fun e => P e) (interleave answer schedule threads w).2.*2)
      <= sum_list ns.
Proof.
  induction schedule as [| i rest IH]; intros threads ns w Hbound; simpl.
  - lia.
  - destruct (threads !! i) as [[r | e | X c k] |] eqn:Hi;
      try exact (IH threads ns w Hbound).
    destruct (answer X c w) as [o w1].
    destruct (Forall2_lookup_l _ _ _ _ _ Hbound Hi) as (n & Hn & Hcall).
    simpl in Hcall. specialize (Hcall o).
    destruct (P (entry c o)) eqn:HP.
    + destruct n as [| m]; [contradiction |].
      assert (Hnext : Forall2 (fun p n => at_most P n p)
                        (<[i := k o]> threads) (<[i := m]> ns))
        by (apply Forall2_insert; assumption).
      specialize (IH _ _ w1 Hnext).
      pose proof (sum_list_insert ns i (S m) m Hn) as Hsum.
      destruct (interleave answer rest (<[i := k o]> threads) w1)
        as [[ts w2] log]; simpl in *.
      rewrite filter_cons_True by (simpl; rewrite HP; exact I).
      simpl. change (list_fmap _ _ snd log) with (log.*2). lia.
    + assert (Hnext : Forall2 (fun p n => at_most P n p)
                        (<[i := k o]> threads) (<[i := n]> ns))
        by (apply Forall2_insert; assumption).
      rewrite (list_insert_id ns i n Hn) in Hnext.
      specialize (IH _ _ w1 Hnext).
      destruct (interleave answer rest (<[i := k o]> threads) w1)
        as [[ts w2] log]; simpl in *.
      rewrite filter_cons_False by (simpl; rewrite HP; exact id).
      change (list_fmap _ _ snd log) with (log.*2). exact IH.
Qed.

End InFlight.

Section InFlightHandlers.

Import Server.

Context {W : Type}.
Variable answer : forall X, Event X -> W -> Outcome X * W.

(** X7.  However many tool calls are in flight and however they take
    turns at their awaits, `refreshToken` is called at most once per
    call in flight; the handler never refreshes twice for one request. *)
Theorem refreshes_at_most_once_per_call_in_flight (schedule : list nat)
    (requests : list ToolRequest) (w : W) :
  refresh_calls
    (interleave answer schedule (map callTool requests) w).2.*2
  <= length requests.
Proof.
  unfold refresh_calls.
  assert (Hsum : sum_list (map (fun _ => 1) requests) = length requests).
  { induction requests as [| r rs IH]; simpl; [reflexivity | lia]. }
  rewrite <- Hsum. apply interleave_at_most.
  clear Hsum. induction requests as [| request rs IH]; simpl; constructor;
    [| exact IH].
  destruct request; unfold callTool, dispatch, use_account, forget_account;
    repeat first
      [ exact I
      | progress simpl
      | intros [? | ?]
      | match goal with
        | |- context [valid ?s] => destruct (valid s)
        | |- context [token ?s] => destruct (token s)
        | |- context [bool_decide ?P] => destruct (bool_decide P)
        | |- context [nonempty ?c] => destruct (nonempty c)
        end ].
Qed.

End InFlightHandlers.

(** ** Start-up *)

Section StartupProperties.

Import Startup.

Context {W : Type}.
Variable answer : forall X, Event X -> W -> Outcome X * W.

Ltac answer_console Hconsole :=
  match goal with
  | |- context [answer unit (console_error ?t ?e) ?w] =>
      let H := fresh "Hwritten" in
      pose proof (Hconsole t e w) as H;
      destruct (answer unit (console_error t e) w) as [? ?];
      simpl in H; subst; simpl
  end.

Ltac answer_step :=
  match goal with
  | |- context [answer unit ?c ?w] =>
      destruct (answer unit c w) as [[[] | ?] ?]; simpl
  end.

(** X8.  `run` takes its steps in the order account module, Gmail module,
    Calendar module, transport, and stops at the first one that fails: no
    later step is started and the failure is rethrown as it is.  It
    returns only after all four steps succeeded. *)
Theorem startup_stops_at_first_failure (w : W) :
  console_works answer ->
  let r := run answer run_server w in
  let steps := filter (fun e => is_step e) (log_of r) in
  map step_number steps = seq 1 (length steps) /\
  Forall (fun e => answered e) (removelast steps) /\
  match result_of r with
  | Ok _ => length steps = 4 /\ Forall (fun e => answered e) steps
  | Rejected e =>
      exists c : Event unit, last steps = Some (entry c (Rejected e))
  end.
Proof.
  intros Hconsole. unfold run_server; simpl.
  repeat first [answer_console Hconsole | answer_step];
    repeat split; repeat constructor; eauto.
Qed.

Lemma no_exit_in_run_server : always (fun e => is_exit e = false) run_server.
Proof.
  unfold run_server.
  repeat first
    [ exact I
    | reflexivity
    | apply always_try_catch
    | apply always_bind
    | apply always_call
    | intros ? ].
Qed.

(** X9.  `process.exit` has two callers.  The catch on `run()` calls
    `process.exit(1)`, once, exactly when start-up failed, after all that
    `run` did and after writing the failure as fatal; after a start-up
    that succeeded it calls nothing.  The handler of SIGINT and SIGTERM
    writes that the server shuts down and calls `process.exit(0)`. *)
Theorem exit_only_after_failed_startup (w : W) :
  console_works answer ->
  let body := run answer run_server w in
  let r := run answer main w in
  match result_of body with
  | Ok _ =>
      result_of r = Ok tt /\ log_of r = log_of body /\
      filter (fun e => is_exit e) (log_of r) = []
  | Rejected e =>
      exists o,
        log_of r = log_of body ++
          [ entry (console_error "Fatal server error:" (Some e)) (Ok tt);
            entry (process_exit 1) o ] /\
        filter (fun e => is_exit e) (log_of r) = [entry (process_exit 1) o]
  end /\
  exists o,
    log_of (run answer on_signal w) =
      [ entry (console_error "Shutting down Google Workspace MCP server..."
                 None) (Ok tt);
        entry (process_exit 0) o ].
Proof.
  intros Hconsole body r. split.
  - subst r. unfold main. rewrite run_try_catch.
    pose proof (always_run answer _ _ no_exit_in_run_server w) as Hnone.
    fold body in Hnone |- *.
    assert (Hfilter : forall l : list (Entry Event),
              Forall (fun e => is_exit e = false) l ->
              filter (fun e => is_exit e) l = []).
    { induction 1 as [| x l Hx _ IH]; [reflexivity |].
      rewrite filter_cons_False by (rewrite Hx; exact id). exact IH. }
    destruct body as [[[[] | e] w1] log]; unfold log_of, result_of in *; simpl.
    + repeat split. apply Hfilter, Hnone.
    + pose proof (Hconsole "Fatal server error:" (Some e) w1) as Hwritten.
      destruct (answer unit (console_error "Fatal server error:" (Some e)) w1)
        as [o1 w2]. simpl in Hwritten. subst o1. simpl.
      destruct (answer unit (process_exit 1) w2) as [o w3].
      exists o.
      destruct o as [[] | e']; simpl;
        rewrite filter_app, Hfilter by exact Hnone; split; reflexivity.
  - unfold on_signal; simpl.
    pose proof (Hconsole "Shutting down Google Workspace MCP server..." None w)
      as Hwritten.
    destruct (answer unit
                (console_error "Shutting down Google Workspace MCP server..."
                   None) w) as [o1 w1].
    simpl in Hwritten. subst o1. simpl.
    destruct (answer unit (process_exit 0) w1) as [[[] | e] w2]; simpl;
      eexists; reflexivity.
Qed.

End StartupProperties.

(** ** The draft service on every path *)

Section DraftPaths.

Import Draft DraftLog.

Variable OUTGOING : string.
Variable base64 : string -> string.

Context {W : Type}.
Variable answer : forall X, Event X -> W -> Outcome X * W.

Lemma wrap_result {R} (msg cod : string) (p : Prog Event R) (w : W) :
  result_of (run answer (wrap msg cod p) w) =
  match result_of (run answer p w) with
  | Ok r => Ok r
  | Rejected e => Rejected (GmailError msg cod (Some (message_or_unknown e)))
  end.
Proof.
  unfold wrap. rewrite run_try_catch.
  destruct (run answer p w) as [[[r | e] w1] log]; reflexivity.
Qed.

(** X11.  With a client set, `deleteDraft` and `sendDraft` make exactly one
    call, the request for the given draft on that client, and succeed or
    fail with it: a rejection comes back under the operation's code with
    the rejection's message as resolution. *)
Theorem delete_and_send_make_one_request (self : DraftService)
    (client : GmailClient) (email draftId : string) (w : W) :
  gmailClient self = Some client ->
  run answer (deleteDraft self email draftId) w =
    (let '(o, w1) := answer _ (drafts_delete client draftId) w in
     (match o with
      | Ok _ => Ok tt
      | Rejected e =>
          Rejected (GmailError "Failed to delete draft" "DELETE_ERROR"
                      (Some (message_or_unknown e)))
      end, w1, [entry (drafts_delete client draftId) o])) /\
  run answer (sendDraft self email draftId) w =
    (let '(o, w1) := answer _ (drafts_send client draftId) w in
     (match o with
      | Ok sent =>
          Ok {| messageId := api_msg_id sent;
                sent_threadId := api_msg_threadId sent;
                sent_labelIds := api_msg_labelIds sent |}
      | Rejected e =>
          Rejected (GmailError "Failed to send draft" "SEND_ERROR"
                      (Some (message_or_unknown e)))
      end, w1, [entry (drafts_send client draftId) o])).
Proof.
  intros Hclient.
  unfold deleteDraft, sendDraft, wrap, ensureClient. rewrite Hclient. simpl.
  destruct (answer _ (drafts_delete client draftId) w) as [[[] | e1] w1];
    destruct (answer _ (drafts_send client draftId) w) as [[sent | e2] w2];
    split; reflexivity.
Qed.

(** X12.  `manageDraft` checks its parameters before it calls anything: an
    action that is none of the five, 'create' without data, and 'update'
    without data even when the draft id is there, throw INVALID_PARAMS at
    once.  An empty draft id counts as none: with `draftId: ''`, 'read'
    lists all drafts and 'update', 'delete' and 'send' throw
    INVALID_PARAMS. *)
Theorem manage_rejects_incomplete_requests (self : DraftService)
    (email action : string) (draftId : option string)
    (data : option DraftData) :
  action ∉ ["create"; "read"; "update"; "delete"; "send"] ->
  let request action draftId data :=
    manageDraft OUTGOING base64 self
      {| Draft.email := email; Draft.action := action;
         Draft.draftId := draftId; Draft.data := data |} in
  let invalid message := Throw (GmailError message "INVALID_PARAMS" None) in
  request action draftId data
    = Throw (GmailError "Invalid action" "INVALID_PARAMS"
               (Some "Supported actions are: create, read, update, delete, send"))
  /\
  request "create" draftId None
    = invalid "Draft data is required for create action" /\
  request "update" draftId None
    = invalid "Draft ID and data are required for update action" /\
  request "update" (Some "") data
    = invalid "Draft ID and data are required for update action" /\
  request "delete" (Some "") data
    = invalid "Draft ID is required for delete action" /\
  request "send" (Some "") data
    = invalid "Draft ID is required for send action" /\
  request "read" (Some "") data = pmap Listed (listDrafts self email).
Proof.
  intros Hunknown request invalid. subst request invalid. cbv beta.
  repeat apply conj; try reflexivity.
  - unfold manageDraft; cbn [Draft.email Draft.action Draft.draftId Draft.data].
    repeat match goal with
      | |- context [String.eqb action ?s] =>
          destruct (String.eqb_spec action s) as [-> | _];
          [exfalso; apply Hunknown; set_solver |]
      end.
    reflexivity.
  - unfold manageDraft; cbn [Draft.email Draft.action Draft.draftId Draft.data].
    destruct (nonempty draftId); reflexivity.
Qed.

(** X13.  Before `updateClient`, `manageDraft` fails for every request
    whatever, with a GmailError, and calls nothing: neither the Gmail API
    nor the attachment service nor Drive. *)
Theorem manage_without_client_calls_nothing (params : ManageDraftParams)
    (w : W) :
  exists e,
    run answer (manageDraft OUTGOING base64 new_DraftService params) w
      = (Rejected e, w, []) /\
    class e = IsGmailError /\
    (code e = Some "INVALID_PARAMS" \/
     resolution e = Some "Gmail client not initialized").
Proof.
  destruct params as [email action draftId data].
  unfold manageDraft; cbn [Draft.email Draft.action Draft.draftId Draft.data].
  destruct (String.eqb action "create");
    [destruct data; eexists; (split; [reflexivity | simpl; auto]) |].
  destruct (String.eqb action "read");
    [destruct (nonempty draftId); eexists;
       (split; [reflexivity | simpl; auto]) |].
  destruct (String.eqb action "update");
    [destruct (nonempty draftId), data; eexists;
       (split; [reflexivity | simpl; auto]) |].
  destruct (String.eqb action "delete");
    [destruct (nonempty draftId); eexists;
       (split; [reflexivity | simpl; auto]) |].
  destruct (String.eqb action "send");
    [destruct (nonempty draftId); eexists;
       (split; [reflexivity | simpl; auto]) |].
  eexists; split; [reflexivity | simpl; auto].
Qed.

End DraftPaths.

(** ** Which calls the draft operations can make *)

Section DraftCalls.

Import Draft DraftLog.

Variable OUTGOING : string.
Variable base64 : string -> string.

Context {W : Type}.
Variable answer : forall X, Event X -> W -> Outcome X * W.

Lemma at_most_zero {E R} (P : Entry E -> bool) (p : Prog E R) :
  always (fun e => P e = false) p -> at_most P 0 p.
Proof.
  induction p as [r | e | X c k IH]; simpl; auto.
  intros Hp o. destruct (Hp o) as [-> Hk]. auto.
Qed.

Lemma at_most_bind_l {E A B} (P : Entry E -> bool) (n : nat) (p : Prog E A)
    (f : A -> Prog E B) :
  at_most P 0 p -> (forall a, at_most P n (f a)) -> at_most P n (bind p f).
Proof.
  intros Hp Hf. induction p as [r | e | X c k IH]; simpl; auto.
  intros o. specialize (Hp o). simpl in Hp.
  destruct (P (entry c o)); [contradiction | auto].
Qed.

Lemma at_most_try_catch {E A} (P : Entry E -> bool) (p : Prog E A)
    (h : Error -> Prog E A) :
  forall n, at_most P n p -> (forall e, at_most P 0 (h e)) ->
            at_most P n (try_catch p h).
Proof.
  induction p as [r | e | X c k IH]; intros n Hp Hh; simpl; auto.
  - apply (at_most_mono P 0 n); [lia | apply Hh].
  - intros o. specialize (Hp o).
    destruct (P (entry c o)); [destruct n; [contradiction |] |]; auto.
Qed.

(** The two attachment loops and the building of the message call the
    attachment service, Drive and the clock, nothing else. *)
Lemma always_process_loop (P : Entry Event -> Prop) (email : string)
    (atts : list DraftAttachment) :
  (forall e, request_client e = None -> P e) ->
  forall acc, always P (process_loop OUTGOING email atts acc).
Proof.
  intros HP. induction atts as [| a rest IH]; intros acc; simpl; [exact I |].
  intros o. split; [apply HP; reflexivity |].
  destruct o as [result | e]; simpl; [| exact I].
  destruct (proc_success result), (proc_attachment result); apply IH.
Qed.

Lemma always_download_loop (P : Entry Event -> Prop) (email boundary : string)
    (processed : list Attachment) :
  (forall e, request_client e = None -> P e) ->
  forall parts,
    always P (download_loop base64 email boundary processed parts).
Proof.
  intros HP. induction processed as [| a rest IH]; intros parts; simpl;
    [exact I |].
  intros o. split; [apply HP; reflexivity |].
  destruct o as [file | e]; simpl; [| exact I].
  destruct (dl_success file); apply IH.
Qed.

Lemma always_attachments (P : Entry Event -> Prop) (email : string)
    (data : DraftData) :
  (forall e, request_client e = None -> P e) ->
  always P (processAttachments OUTGOING email (attachments data)) /\
  forall processed, always P (build_message base64 email data processed).
Proof.
  intros HP. split.
  - unfold processAttachments. destruct (attachments data); [| exact I].
    apply always_process_loop, HP.
  - intros processed. unfold build_message.
    apply always_bind; [apply always_call; intros; apply HP; reflexivity |].
    intros now. apply always_bind; [| intros; exact I].
    apply always_download_loop, HP.
Qed.

(** The body of `createDraft` and `updateDraft` passes [P] if the
    request it ends with does. *)
Lemma always_draft_body (P : Entry Event -> Prop) (email : string)
    (data : DraftData) (send : string -> Event ApiDraft) (msg cod : string) :
  (forall e, request_client e = None -> P e) ->
  (forall raw o, P (entry (send raw) o)) ->
  always P
    (wrap msg cod
       (let* processedAttachments :=
          processAttachments OUTGOING email (attachments data) in
        let* fullMessage :=
          build_message base64 email data processedAttachments in
        let* draft := call (send (base64 fullMessage)) in
        let* updated := call Date_toISOString in
        Ret (draft_result draft updated processedAttachments))).
Proof.
  intros HP Hsend. destruct (always_attachments P email data HP) as [H1 H2].
  unfold wrap. apply always_try_catch; [| intros; exact I].
  apply always_bind; [exact H1 |]. intros processed.
  apply always_bind; [apply H2 |]. intros full.
  apply always_bind; [apply always_call; intros; apply Hsend |]. intros draft.
  apply always_bind; [| intros; exact I].
  apply always_call. intros; apply HP; reflexivity.
Qed.

Lemma always_getDraft (P : Entry Event -> Prop) (self : DraftService)
    (email draftId : string) :
  (forall o, P (entry Date_toISOString o)) ->
  (forall client, gmailClient self = Some client ->
     forall o, P (entry (drafts_get client draftId "full") o)) ->
  always P (getDraft self email draftId).
Proof.
  intros Hdate Hget. unfold getDraft, wrap, ensureClient.
  destruct (gmailClient self) as [client |] eqn:Hclient; [| exact I].
  apply always_try_catch; [| intros; exact I]. simpl.
  intros o. split; [apply (Hget client eq_refl) |].
  destruct o; simpl; [| exact I].
  intros o. split; [apply Hdate | destruct o; exact I].
Qed.

Lemma always_listDrafts (P : Entry Event -> Prop) (self : DraftService)
    (email : string) :
  (forall o, P (entry Date_toISOString o)) ->
  (forall client, gmailClient self = Some client ->
     (forall o, P (entry (drafts_list client) o)) /\
     (forall id o, P (entry (drafts_get client id "full") o))) ->
  always P (listDrafts self email).
Proof.
  intros Hdate Hreq. unfold listDrafts, wrap.
  apply always_try_catch; [| intros; exact I].
  unfold ensureClient.
  destruct (gmailClient self) as [client |] eqn:Hclient; [| exact I].
  destruct (Hreq client eq_refl) as [Hlist Hget].
  change (bind (Ret client) ?f) with (f client). cbv beta.
  apply always_bind; [apply always_call, Hlist |]. intros data.
  apply always_bind; [| intros; exact I].
  apply always_promise_all. apply Forall_fmap, Forall_forall. intros ref _.
  simpl. apply always_getDraft; [exact Hdate |].
  intros client' Hclient' o. rewrite Hclient in Hclient'.
  injection Hclient' as <-. apply Hget.
Qed.

Lemma unrequested_not_gmail (e : Entry Event) :
  request_client e = None -> gmail_request e = false.
Proof. destruct e as [X c o]; destruct c; simpl; congruence. Qed.

(** X14.  Every request any of the six operations sends to the Gmail API
    is sent on the client the service holds, the one the last
    `updateClient` gave it. *)
Theorem requests_go_to_the_client_held (self : DraftService)
    (email draftId : string) (data : DraftData) (w : W) :
  Forall (on_own_client self)
    (log_of (run answer (createDraft OUTGOING base64 self email data) w)) /\
  Forall (on_own_client self)
    (log_of (run answer (listDrafts self email) w)) /\
  Forall (on_own_client self)
    (log_of (run answer (getDraft self email draftId) w)) /\
  Forall (on_own_client self)
    (log_of (run answer
               (updateDraft OUTGOING base64 self email draftId data) w)) /\
  Forall (on_own_client self)
    (log_of (run answer (deleteDraft self email draftId) w)) /\
  Forall (on_own_client self)
    (log_of (run answer (sendDraft self email draftId) w)).
Proof.
  assert (Hnone : forall e, request_client e = None -> on_own_client self e).
  { intros e He client Hclient. congruence. }
  assert (Hdate : forall o, on_own_client self (entry Date_toISOString o)).
  { intros o. apply Hnone. reflexivity. }
  repeat apply conj; apply always_run.
  - unfold createDraft, ensureClient.
    destruct (gmailClient self) as [client |] eqn:Hclient; [| exact I].
    apply (always_draft_body _ email data
             (fun raw => drafts_create client raw (threadId data)));
      [exact Hnone |].
    intros raw o c [= <-]. exact Hclient.
  - apply always_listDrafts; [exact Hdate |].
    intros client Hclient. split; intros; intros c [= <-]; exact Hclient.
  - apply always_getDraft; [exact Hdate |].
    intros client Hclient o c [= <-]. exact Hclient.
  - unfold updateDraft, ensureClient.
    destruct (gmailClient self) as [client |] eqn:Hclient; [| exact I].
    apply (always_draft_body _ email data
             (fun raw => drafts_update client draftId raw));
      [exact Hnone |].
    intros raw o c [= <-]. exact Hclient.
  - unfold deleteDraft, wrap, ensureClient.
    destruct (gmailClient self) as [client |] eqn:Hclient; [| exact I].
    simpl. intros o. split; [intros c [= <-]; exact Hclient |].
    destruct o; exact I.
  - unfold sendDraft, wrap, ensureClient.
    destruct (gmailClient self) as [client |] eqn:Hclient; [| exact I].
    simpl. intros o. split; [intros c [= <-]; exact Hclient |].
    destruct o; exact I.
Qed.

(** X15.  Reading changes nothing: `getDraft` and `listDrafts` send only
    `drafts.get` and `drafts.list` requests and read the clock; they never
    create, update, delete or send a draft and never call the attachment
    service or Drive. *)
Theorem reading_sends_no_write (self : DraftService) (email draftId : string)
    (w : W) :
  Forall (fun e => reads_only e = true)
    (log_of (run answer (getDraft self email draftId) w)) /\
  Forall (fun e => reads_only e = true)
    (log_of (run answer (listDrafts self email) w)).
Proof.
  split; apply always_run.
  - apply always_getDraft; reflexivity.
  - apply always_listDrafts; [reflexivity |]. intros; split; reflexivity.
Qed.

(** X16.  `createDraft` sends at most one request to the Gmail API, and
    only `drafts.create` with the thread id of the data; `updateDraft`
    sends at most one, and only `drafts.update` of the draft it was given.
    Neither retries. *)
Theorem create_and_update_send_one_request (self : DraftService)
    (email draftId : string) (data : DraftData) (w : W) :
  let created :=
    log_of (run answer (createDraft OUTGOING base64 self email data) w) in
  let updated :=
    log_of (run answer
              (updateDraft OUTGOING base64 self email draftId data) w) in
  Forall (creates_in (threadId data)) created /\
  length (filter (fun e => gmail_request e) created) <= 1 /\
  Forall (updates draftId) updated /\
  length (filter (fun e => gmail_request e) updated) <= 1.
Proof.
  assert (Hcount : forall (send : string -> Event ApiDraft) msg cod,
    (forall raw o, gmail_request (entry (send raw) o) = true) ->
    at_most gmail_request 1
      (wrap msg cod
         (let* processedAttachments :=
            processAttachments OUTGOING email (attachments data) in
          let* fullMessage :=
            build_message base64 email data processedAttachments in
          let* draft := call (send (base64 fullMessage)) in
          let* updated := call Date_toISOString in
          Ret (draft_result draft updated processedAttachments)))).
  { intros send msg cod Hsend.
    destruct (always_attachments (fun e => gmail_request e = false) email data
                unrequested_not_gmail) as [H1 H2].
    unfold wrap. apply at_most_try_catch; [| intros; exact I].
    apply at_most_bind_l; [apply at_most_zero, H1 |]. intros processed.
    apply at_most_bind_l; [apply at_most_zero, H2 |]. intros full.
    cbn -[gmail_request]. intros o. rewrite Hsend.
    destruct o; simpl; [| exact I]. intros o. destruct o; exact I. }
  intros created updated. subst created updated.
  repeat apply conj; try apply always_run; try apply at_most_run;
    unfold createDraft, updateDraft, ensureClient;
    destruct (gmailClient self) as [client |]; try exact I.
  - apply (always_draft_body _ email data
             (fun raw => drafts_create client raw (threadId data)));
      [| reflexivity].
    intros [X c o] He; destruct c; simpl in *; first [exact I | congruence].
  - apply (Hcount (fun raw => drafts_create client raw (threadId data)));
      reflexivity.
  - apply (always_draft_body _ email data
             (fun raw => drafts_update client draftId raw)); [| reflexivity].
    intros [X c o] He; destruct c; simpl in *; first [exact I | congruence].
  - apply (Hcount (fun raw => drafts_update client draftId raw)); reflexivity.
Qed.

(** X17.  A draft without attachments, the list absent or empty, is
    created and updated without any call of the attachment service or of
    Drive. *)
Theorem no_attachments_no_drive_calls (self : DraftService)
    (email draftId : string) (data : DraftData) (w : W) :
  attachments data = None \/ attachments data = Some [] ->
  Forall (fun e => drive_call e = false)
    (log_of (run answer (createDraft OUTGOING base64 self email data) w)) /\
  Forall (fun e => drive_call e = false)
    (log_of (run answer
               (updateDraft OUTGOING base64 self email draftId data) w)).
Proof.
  intros Hnone.
  split; apply always_run;
    unfold createDraft, updateDraft, ensureClient, wrap, processAttachments,
      build_message;
    destruct (gmailClient self) as [client |]; try exact I;
    destruct Hnone as [-> | ->]; simpl;
    repeat first
      [ exact I | reflexivity | intros [? | ?]; simpl | split ].
Qed.

End DraftCalls.

(** ** Listing drafts *)

Section Listing.

Import Draft DraftLog.

Context {W : Type}.
Variable answer : forall X, Event X -> W -> Outcome X * W.

Lemma got_ids_app (l1 l2 : list (Entry Event)) :
  got_ids (l1 ++ l2) = got_ids l1 ++ got_ids l2.
Proof. apply flat_map_app. Qed.

(** One `getDraft` of the list, run to its end: it asks for its id and
    for no other, and a failure of it is 'Failed to get draft'. *)
Lemma run_settle_getDraft (self : DraftService) (client : GmailClient)
    (email id : string) (w : W) :
  gmailClient self = Some client ->
  exists o w' log,
    run answer (settle (getDraft self email id)) w = (Ok o, w', log) /\
    got_ids log = [id] /\
    fails_as "Failed to get draft" "GET_ERROR" o.
Proof.
  intros Hclient. unfold settle, getDraft, wrap, ensureClient.
  rewrite Hclient. simpl.
  destruct (answer _ (drafts_get client id "full") w) as [[d | e] w1]; simpl;
    [destruct (answer _ Date_toISOString w1) as [[u | e] w2]; simpl |];
    eexists _, _, _; repeat split; simpl; eauto.
Qed.

Lemma run_settle_all (self : DraftService) (client : GmailClient)
    (email : string) (refs : list ApiDraftRef) :
  gmailClient self = Some client ->
  forall w,
  exists os w' log,
    run answer
      (settle_all (map (fun draft => getDraft self email (ref_id draft)) refs))
      w = (Ok os, w', log) /\
    got_ids log = map ref_id refs /\
    length os = length refs /\
    Forall (fails_as "Failed to get draft" "GET_ERROR") os.
Proof.
  intros Hclient.
  induction refs as [| ref refs IH]; intros w; simpl.
  - exists [], w, []. repeat split. constructor.
  - rewrite run_bind.
    destruct (run_settle_getDraft self client email (ref_id ref) w Hclient)
      as (o & w1 & log1 & Hrun1 & Hids1 & Ho).
    rewrite Hrun1. rewrite run_bind.
    destruct (IH w1) as (os & w2 & log2 & Hrun2 & Hids2 & Hlen & Hos).
    rewrite Hrun2. simpl.
    exists (o :: os), w2, (log1 ++ log2 ++ []). repeat split.
    + rewrite app_nil_r, got_ids_app, Hids1, Hids2. reflexivity.
    + simpl. rewrite Hlen. reflexivity.
    + constructor; assumption.
Qed.

Lemma collect_all {R} (os : list (Outcome R)) :
  Forall (fails_as "Failed to get draft" "GET_ERROR") os ->
  match collect os with
  | Ok rs => length rs = length os
  | Rejected e => fails_as "Failed to get draft" "GET_ERROR" (Rejected e : Outcome R)
  end.
Proof.
  induction 1 as [| o os Ho _ IH]; simpl; [reflexivity |].
  destruct o as [r | e]; [| exact Ho].
  destruct (collect os); simpl; [rewrite IH; reflexivity | exact IH].
Qed.

Lemma run_listDrafts (self : DraftService) (client : GmailClient)
    (email : string) (data : ApiDraftList) (w w1 : W) :
  gmailClient self = Some client ->
  answer _ (drafts_list client) w = (Ok data, w1) ->
  let r := run answer (listDrafts self email) w in
  let refs := default [] (api_drafts data) in
  got_ids (log_of r) = map ref_id refs /\
  match result_of r with
  | Ok l => length (drafts l) = length refs
  | Rejected e =>
      e = GmailError "Failed to list drafts" "LIST_ERROR"
            (Some "Failed to get draft")
  end.
Proof.
  intros Hclient Hlist r refs. subst r.
  unfold listDrafts, wrap, ensureClient. rewrite Hclient.
  change (bind (Ret client) ?f) with (f client). cbv beta.
  rewrite run_try_catch, run_bind, run_call, Hlist. cbn [fst snd].
  unfold promise_all. rewrite !run_bind.
  destruct (run_settle_all self client email refs Hclient w1)
    as (os & w2 & log2 & Hrun & Hids & Hlen & Hos).
  fold refs. rewrite Hrun.
  pose proof (collect_all os Hos) as Hcollect.
  destruct (collect os) as [rs | e]; simpl.
  - rewrite !app_nil_r. unfold log_of, result_of; simpl.
    split; [exact Hids | congruence].
  - rewrite !app_nil_r. unfold log_of, result_of; simpl.
    split; [exact Hids |].
    destruct Hcollect as [cause ->]. reflexivity.
Qed.

(** X18.  When `drafts.list` has answered, `listDrafts` asks `drafts.get`
    for every draft listed, each once and in the order of the list,
    whether the gets succeed or not; and when it succeeds it returns as
    many drafts as were listed. *)
Theorem list_gets_every_listed_draft (self : DraftService)
    (client : GmailClient) (email : string) (data : ApiDraftList) (w w1 : W) :
  gmailClient self = Some client ->
  answer _ (drafts_list client) w = (Ok data, w1) ->
  let r := run answer (listDrafts self email) w in
  got_ids (log_of r) = map ref_id (default [] (api_drafts data)) /\
  match result_of r with
  | Ok l => length (drafts l) = length (default [] (api_drafts data))
  | Rejected _ => True
  end.
Proof.
  intros Hclient Hlist r.
  destruct (run_listDrafts self client email data w w1 Hclient Hlist)
    as [Hids Hres].
  split; [exact Hids |].
  fold r in Hres. destruct (result_of r); [exact Hres | exact I].
Qed.

(** X19.  When `drafts.list` has answered and `listDrafts` fails all the
    same, one of the gets failed, and the cause is lost: the error is
    LIST_ERROR with the resolution 'Failed to get draft', the message of
    the get's own wrapper, not of what the Gmail API reported. *)
Theorem list_failure_names_no_cause (self : DraftService)
    (client : GmailClient) (email : string) (data : ApiDraftList) (w w1 : W)
    (e : Error) :
  gmailClient self = Some client ->
  answer _ (drafts_list client) w = (Ok data, w1) ->
  result_of (run answer (listDrafts self email) w) = Rejected e ->
  e = GmailError "Failed to list drafts" "LIST_ERROR"
        (Some "Failed to get draft").
Proof.
  intros Hclient Hlist Hfailed.
  destruct (run_listDrafts self client email data w w1 Hclient Hlist)
    as [_ Hres].
  rewrite Hfailed in Hres. exact Hres.
Qed.

End Listing.

(** ** How the draft operations fail *)

Section Relays.

Context {E : Type -> Type} {W : Type}.
Variable answer : forall X, E X -> W -> Outcome X * W.

Lemma relays_bind {A B} (p : Prog E A) (f : A -> Prog E B) :
  relays p -> (forall a, relays (f a)) -> relays (bind p f).
Proof.
  intros Hp Hf. induction p as [r | e | X c k IH]; simpl.
  - apply Hf.
  - destruct Hp.
  - destruct Hp as [Hrej Hok]. split.
    + intros e. rewrite Hrej. reflexivity.
    + intros x. apply IH, Hok.
Qed.

Lemma relays_call {X} (c : E X) : relays (call c).
Proof. split; [reflexivity | intros; exact I]. Qed.

Lemma relays_rethrows {R} (p : Prog E R) : relays p -> rethrows p.
Proof.
  induction p as [r | e | X c k IH]; simpl; auto.
  intros [Hrej Hok]. split; [exact Hrej | intros x; apply IH, Hok].
Qed.

(** A program that relays returns only if every call was answered, and
    rejects only with the rejection of its last call, all calls before
    having been answered. *)
Lemma relays_run {R} (p : Prog E R) :
  relays p ->
  forall w,
    match result_of (run answer p w) with
    | Ok _ => Forall (fun e => answered e) (log_of (run answer p w))
    | Rejected e =>
        exists l X (c : E X),
          log_of (run answer p w) = l ++ [entry c (Rejected e)] /\
          Forall (fun e => answered e) l
    end.
Proof.
  induction p as [r | e | X c k IH]; intros Hp w; simpl.
  - constructor.
  - destruct Hp.
  - destruct Hp as [Hrej Hok].
    destruct (answer X c w) as [[x | e] w1].
    + specialize (IH (Ok x) (Hok x) w1).
      destruct (run answer (k (Ok x)) w1) as [[[r | e] w2] log];
        unfold result_of, log_of in *; simpl in *.
      * constructor; [exact I | exact IH].
      * destruct IH as (l & Y & c' & -> & Hl).
        exists (entry c (Ok x) :: l), Y, c'. split; [reflexivity |].
        constructor; [exact I | exact Hl].
    + rewrite Hrej. unfold result_of, log_of; simpl.
      exists [], X, c. split; [reflexivity | constructor].
Qed.

End Relays.

Section DraftFailures.

Import Draft DraftLog.

Variable OUTGOING : string.
Variable base64 : string -> string.

Context {W : Type}.
Variable answer : forall X, Event X -> W -> Outcome X * W.

Lemma run_wrap {R} (msg cod : string) (p : Prog Event R) (w : W) :
  run answer (wrap msg cod p) w =
  match run answer p w with
  | (Ok r, w', log) => (Ok r, w', log)
  | (Rejected e, w', log) =>
      (Rejected (GmailError msg cod (Some (message_or_unknown e))), w', log)
  end.
Proof.
  unfold wrap. rewrite run_try_catch.
  destruct (run answer p w) as [[[r | e] w'] log]; simpl; [reflexivity |].
  rewrite app_nil_r. reflexivity.
Qed.

Lemma relays_process_loop (email : string) (atts : list DraftAttachment) :
  forall acc, relays (process_loop OUTGOING email atts acc).
Proof.
  induction atts as [| a rest IH]; intros acc; simpl; [exact I |].
  split; [reflexivity |]. intros result. simpl.
  destruct (proc_success result), (proc_attachment result); apply IH.
Qed.

Lemma relays_download_loop (email boundary : string)
    (processed : list Attachment) :
  forall parts, relays (download_loop base64 email boundary processed parts).
Proof.
  induction processed as [| a rest IH]; intros parts; simpl; [exact I |].
  split; [reflexivity |]. intros file. simpl.
  destruct (dl_success file); apply IH.
Qed.

(** The body of `createDraft` and `updateDraft` throws nothing of its
    own. *)
Lemma relays_draft_body (email : string) (data : DraftData)
    (send : string -> Event ApiDraft) :
  relays
    (let* processedAttachments :=
       processAttachments OUTGOING email (attachments data) in
     let* fullMessage :=
       build_message base64 email data processedAttachments in
     let* draft := call (send (base64 fullMessage)) in
     let* updated := call Date_toISOString in
     Ret (draft_result draft updated processedAttachments)).
Proof.
  apply relays_bind.
  { unfold processAttachments. destruct (attachments data); [| exact I].
    apply relays_process_loop. }
  intros processed. apply relays_bind.
  { unfold build_message. apply relays_bind; [apply relays_call |].
    intros now. apply relays_bind; [apply relays_download_loop |].
    intros; exact I. }
  intros full. apply relays_bind; [apply relays_call |].
  intros draft. apply relays_bind; [apply relays_call |].
  intros; exact I.
Qed.

(** An operation whose body relays, once a client is there. *)
Lemma wrapped_ends {R} (self : DraftService) (msg cod : string)
    (body : GmailClient -> Prog Event R) (w : W) :
  (forall client, relays (body client)) ->
  ends_wrapped self msg cod
    (run answer (wrap msg cod (let* client := ensureClient self in body client))
       w).
Proof.
  intros Hbody. unfold ends_wrapped, ensureClient.
  destruct (gmailClient self) as [client |].
  - rewrite run_wrap. simpl.
    pose proof (relays_run answer _ (Hbody client) w) as Hrun.
    unfold result_of, log_of in Hrun.
    destruct (run answer (body client) w) as [[[r | e] w'] log]; simpl in *.
    + exact Hrun.
    + right. destruct Hrun as (l & X & c & Hlog & Hl).
      exists l, X, c, e. auto.
  - simpl. left. auto.
Qed.

Lemma wrapped_rejection {R} (msg cod : string) (p : Prog Event R) (w : W)
    (l1 l2 : list (Entry Event)) (X : Type) (c : Event X) (e : Error) :
  relays p ->
  log_of (run answer (wrap msg cod p) w) = l1 ++ entry c (Rejected e) :: l2 ->
  l2 = [] /\
  result_of (run answer (wrap msg cod p) w)
    = Rejected (GmailError msg cod (Some (message_or_unknown e))).
Proof.
  intros Hp. rewrite run_wrap.
  pose proof (rethrows_run answer p (relays_rethrows p Hp) w l1 X c e l2)
    as Hbody.
  destruct (run answer p w) as [[[r | e'] w'] log];
    unfold log_of, result_of in *; simpl in *; intros Hlog;
    destruct (Hbody Hlog) as [Hlast Hthrown]; [discriminate |].
  injection Hthrown as ->. auto.
Qed.

(** C9, amended.  With a client set: in surroundings that answer every
    call, `createDraft` and `updateDraft` succeed whatever the attachment
    and Drive services report; the result lists exactly the attachments
    whose processing was reported as a success, and the message sent has
    parts only for those of them whose download was reported as a
    success.  In any surroundings, a call that throws, be it
    `processAttachment` or `downloadFile`, is the last call of the
    operation, which rejects with its own code and the thrown message as
    resolution. *)
Theorem failed_attachments_dropped_silently (self : DraftService)
    (client : GmailClient) (email draftId : string) (data : DraftData)
    (w : W) :
  gmailClient self = Some client ->
  let created := run answer (createDraft OUTGOING base64 self email data) w in
  let updated :=
    run answer (updateDraft OUTGOING base64 self email draftId data) w in
  (answers_all answer ->
   dropped_silently base64 data created /\
   dropped_silently base64 data updated) /\
  (forall l1 l2 X (c : Event X) e,
     log_of created = l1 ++ entry c (Rejected e) :: l2 ->
     l2 = [] /\
     result_of created
       = Rejected (GmailError "Failed to create draft" "CREATE_ERROR"
                     (Some (message_or_unknown e)))) /\
  (forall l1 l2 X (c : Event X) e,
     log_of updated = l1 ++ entry c (Rejected e) :: l2 ->
     l2 = [] /\
     result_of updated
       = Rejected (GmailError "Failed to update draft" "UPDATE_ERROR"
                     (Some (message_or_unknown e)))).
Proof.
  intros Hclient created updated. subst created updated.
  split; [| split].
  - intros Hall.
    exact (reported_failures_are_dropped OUTGOING base64 answer self client
             email draftId data w Hclient Hall).
  - intros l1 l2 X c e.
    unfold createDraft, ensureClient. rewrite Hclient.
    apply wrapped_rejection.
    apply (relays_draft_body email data
             (fun raw => drafts_create client raw (threadId data))).
  - intros l1 l2 X c e.
    unfold updateDraft, ensureClient. rewrite Hclient.
    apply wrapped_rejection.
    apply (relays_draft_body email data
             (fun raw => drafts_update client draftId raw)).
Qed.

(** X10.  Each of `createDraft`, `getDraft`, `updateDraft`, `deleteDraft`
    and `sendDraft` rejects only with a GmailError of its own message and
    code whose resolution is the message of what its catch block caught
    ('Unknown error' if that was no Error): the error of `ensureClient`
    when no client is set, no call having been made, and otherwise the
    rejection of the last call made, every call before it having been
    answered.  `listDrafts` rejects in the same two ways, the call being
    `drafts.list`, or with the resolution 'Failed to get draft'. *)
Theorem operation_failures_carry_own_code (self : DraftService)
    (email draftId : string) (data : DraftData) (w : W) :
  ends_wrapped self "Failed to create draft" "CREATE_ERROR"
    (run answer (createDraft OUTGOING base64 self email data) w) /\
  ends_wrapped self "Failed to get draft" "GET_ERROR"
    (run answer (getDraft self email draftId) w) /\
  ends_wrapped self "Failed to update draft" "UPDATE_ERROR"
    (run answer (updateDraft OUTGOING base64 self email draftId data) w) /\
  ends_wrapped self "Failed to delete draft" "DELETE_ERROR"
    (run answer (deleteDraft self email draftId) w) /\
  ends_wrapped self "Failed to send draft" "SEND_ERROR"
    (run answer (sendDraft self email draftId) w) /\
  match result_of (run answer (listDrafts self email) w) with
  | Ok _ => True
  | Rejected err =>
      (gmailClient self = None /\
       log_of (run answer (listDrafts self email) w) = [] /\
       err = GmailError "Failed to list drafts" "LIST_ERROR"
               (Some "Gmail client not initialized")) \/
      (exists client e,
         log_of (run answer (listDrafts self email) w)
           = [entry (drafts_list client) (Rejected e)] /\
         err = GmailError "Failed to list drafts" "LIST_ERROR"
                 (Some (message_or_unknown e))) \/
      err = GmailError "Failed to list drafts" "LIST_ERROR"
              (Some "Failed to get draft")
  end.
Proof.
  repeat apply conj.
  - unfold createDraft. apply wrapped_ends. intros client.
    apply (relays_draft_body email data
             (fun raw => drafts_create client raw (threadId data))).
  - unfold getDraft. apply wrapped_ends. intros client.
    repeat (apply relays_bind; [apply relays_call | intros ?]). exact I.
  - unfold updateDraft. apply wrapped_ends. intros client.
    apply (relays_draft_body email data
             (fun raw => drafts_update client draftId raw)).
  - unfold deleteDraft. apply wrapped_ends. intros client.
    repeat (apply relays_bind; [apply relays_call | intros ?]). exact I.
  - unfold sendDraft. apply wrapped_ends. intros client.
    repeat (apply relays_bind; [apply relays_call | intros ?]). exact I.
  - destruct (gmailClient self) as [client |] eqn:Hclient.
    + destruct (answer _ (drafts_list client) w) as [[listed | e] w1] eqn:Hlist.
      * pose proof (run_listDrafts answer self client email listed w w1
                      Hclient Hlist) as [_ Hres].
        destruct (result_of (run answer (listDrafts self email) w));
          [exact I | auto].
      * unfold listDrafts, ensureClient. rewrite Hclient, run_wrap.
        simpl. rewrite Hlist. simpl.
        right. left. exists client, e. auto.
    + unfold listDrafts, wrap, ensureClient. rewrite Hclient. simpl. auto.
Qed.

End DraftFailures.

(** ** Reading through `manageDraft` *)

Section ManageRead.

Import Draft DraftLog.

Variable OUTGOING : string.
Variable base64 : string -> string.

Context {W : Type}.
Variable answer : forall X, Event X -> W -> Outcome X * W.

Lemma got_drafts_app (l1 l2 : list (Entry Event)) :
  got_drafts (l1 ++ l2) = got_drafts l1 ++ got_drafts l2.
Proof. apply flat_map_app. Qed.

Lemma iso_dates_app (l1 l2 : list (Entry Event)) :
  iso_dates (l1 ++ l2) = iso_dates l1 ++ iso_dates l2.
Proof. apply flat_map_app. Qed.





End ManageRead.

(** ** Concrete runs of the further properties *)

Section MoreConcreteRuns.

Import Server Accounts Scenario Scenario2.

Lemma first_rejection_is_reported_witness :
  let rejected :=
    AccountError "Refresh token rejected" "RefreshRejected"
      (Some "Re-authorize the account") in
  result_of
    (run (manager srv) (callTool (use_google_account (request_for ["read"])))
       stale_state)
  = Ok {| content := error_json (formatErrorResponse rejected);
          isError := true |}.
Proof.
  intros rejected.
  apply (first_rejection_is_reported (manager srv)
           (use_google_account (request_for ["read"])) stale_state
           [ entry (validateAccount "a@x.com" None None) (Ok work_account);
             entry (validateToken "a@x.com" ["read"])
               (Ok (check_token "a@x.com" ["read"] stale_state)) ]
           [] _ (refreshToken (Some "r0")) rejected).
  reflexivity.
Defined.


Lemma boot_console_works : Startup.console_works boot.
Proof. intros text error w. reflexivity. Defined.

Lemma startup_stops_at_first_failure_witness :
  let r := run boot Startup.run_server 0 in
  let steps := filter (fun e => Startup.is_step e) (log_of r) in
  map Startup.step_number steps = seq 1 (length steps) /\
  Forall (fun e => answered e) (removelast steps) /\
  match result_of r with
  | Ok _ => length steps = 4 /\ Forall (fun e => answered e) steps
  | Rejected e =>
      exists c : Startup.Event unit, last steps = Some (entry c (Rejected e))
  end.
Proof.
  apply (startup_stops_at_first_failure boot 0). exact boot_console_works.
Defined.

Lemma exit_only_after_failed_startup_witness :
  (exists o,
     log_of (run boot Startup.main 0) =
       log_of (run boot Startup.run_server 0) ++
         [ entry (Startup.console_error "Fatal server error:"
                    (Some (PlainError "Gmail module failed"))) (Ok tt);
           entry (Startup.process_exit 1) o ] /\
     filter (fun e => Startup.is_exit e) (log_of (run boot Startup.main 0))
       = [entry (Startup.process_exit 1) o]) /\
  exists o,
    log_of (run boot Startup.on_signal 0) =
      [ entry (Startup.console_error
                 "Shutting down Google Workspace MCP server..." None) (Ok tt);
        entry (Startup.process_exit 0) o ].
Proof.
  exact (exit_only_after_failed_startup boot 0 boot_console_works).
Defined.

Lemma delete_and_send_make_one_request_witness :
  run drive
    (Draft.deleteDraft (Draft.updateClient Draft.new_DraftService a_client)
       "a@x.com" "d1") 0
  = (Ok tt, 1, [entry (Draft.drafts_delete a_client "d1") (Ok tt)]).
Proof.
  apply (delete_and_send_make_one_request drive
           (Draft.updateClient Draft.new_DraftService a_client) a_client
           "a@x.com" "d1" 0).
  reflexivity.
Defined.

Lemma manage_rejects_incomplete_requests_witness :
  Draft.manageDraft OUTGOING base64 Draft.new_DraftService
    {| Draft.email := "a@x.com"; Draft.action := "archive";
       Draft.draftId := Some "d1"; Draft.data := None |}
  = Throw (GmailError "Invalid action" "INVALID_PARAMS"
             (Some "Supported actions are: create, read, update, delete, send")).
Proof.
  apply (manage_rejects_incomplete_requests OUTGOING base64
           Draft.new_DraftService "a@x.com" "archive" (Some "d1") None).
  intros H.
  repeat (apply elem_of_cons in H as [H | H]; [discriminate H |]).
  inversion H.
Defined.

Lemma no_attachments_no_drive_calls_witness :
  Forall (fun e => DraftLog.drive_call e = false)
    (log_of (run drive
               (Draft.createDraft OUTGOING base64
                  (Draft.updateClient Draft.new_DraftService a_client)
                  "a@x.com" plain_draft) 0)).
Proof.
  apply (no_attachments_no_drive_calls OUTGOING base64 drive
           (Draft.updateClient Draft.new_DraftService a_client)
           "a@x.com" "d1" plain_draft 0).
  left. reflexivity.
Defined.

Lemma list_gets_every_listed_draft_witness :
  DraftLog.got_ids
    (log_of (run mailbox
               (Draft.listDrafts
                  (Draft.updateClient Draft.new_DraftService a_client)
                  "a@x.com") 0))
  = ["d1"; "d2"].
Proof.
  exact (proj1 (list_gets_every_listed_draft mailbox
                  (Draft.updateClient Draft.new_DraftService a_client) a_client
                  "a@x.com"
                  {| Draft.api_drafts :=
                       Some [ {| Draft.ref_id := "d1" |};
                              {| Draft.ref_id := "d2" |} ];
                     Draft.api_nextPageToken := None;
                     Draft.api_resultSizeEstimate := Some 2%Z |}
                  0 1 eq_refl eq_refl)).
Defined.

Lemma list_failure_names_no_cause_witness :
  exists e,
    result_of
      (run mailbox
         (Draft.listDrafts (Draft.updateClient Draft.new_DraftService a_client)
            "a@x.com") 0) = Rejected e /\
    e = GmailError "Failed to list drafts" "LIST_ERROR"
          (Some "Failed to get draft").
Proof.
  eexists. split; [reflexivity |].
  apply (list_failure_names_no_cause mailbox
           (Draft.updateClient Draft.new_DraftService a_client) a_client
           "a@x.com"
           {| Draft.api_drafts :=
                Some [ {| Draft.ref_id := "d1" |};
                       {| Draft.ref_id := "d2" |} ];
              Draft.api_nextPageToken := None;
              Draft.api_resultSizeEstimate := Some 2%Z |}
           0 1); reflexivity.
Defined.

(** C9, as stated, fails.  Of three attachments the second is not
    processed with success: `processAttachment` throws for it.  It is not
    dropped: `createDraft` stops there and rejects with CREATE_ERROR, the
    third attachment is not looked at and no draft is created. *)
Lemma thrown_attachment_failure_is_not_dropped :
  let service := Draft.updateClient Draft.new_DraftService a_client in
  let r :=
    run broken_drive
      (Draft.createDraft OUTGOING base64 service "a@x.com" draft_data) 0 in
  result_of r
    = Rejected (GmailError "Failed to create draft" "CREATE_ERROR"
                  (Some "Upload to Drive failed")) /\
  Draft.process_calls (log_of r) = 2 /\
  map (fun e => answered e) (log_of r) = [true; false] /\
  ~ Draft.dropped_silently base64 draft_data r.
Proof.
  repeat apply conj; try reflexivity.
  intros (r0 & w' & log & now & Hrun & _). discriminate Hrun.
Qed.

Lemma failed_attachments_dropped_silently_witness :
  let service := Draft.updateClient Draft.new_DraftService a_client in
  Draft.dropped_silently base64 draft_data
    (run drive
       (Draft.createDraft OUTGOING base64 service "a@x.com" draft_data) 0) /\
  result_of
    (run broken_drive
       (Draft.updateDraft OUTGOING base64 service "a@x.com" "d1" draft_data) 0)
  = Rejected (GmailError "Failed to update draft" "UPDATE_ERROR"
                (Some "Upload to Drive failed")).
Proof.
  intros service. split.
  - apply (failed_attachments_dropped_silently OUTGOING base64 drive service
             a_client "a@x.com" "d1" draft_data 0 eq_refl).
    exact drive_answers_all.
  - apply (proj2 (proj2 (failed_attachments_dropped_silently OUTGOING base64
                           broken_drive service a_client "a@x.com" "d1"
                           draft_data 0 eq_refl))
             [ entry (Draft.processAttachment "a@x.com"
                        (Draft.attachment_source (attachment_named "good"))
                        OUTGOING)
                 (Ok {| Draft.proc_success := true;
                        Draft.proc_attachment :=
                          Some {| Draft.att_id := "good";
                                  Draft.att_name := "good";
                                  Draft.att_mimeType := "text/plain" |} |}) ]
             [] _
             (Draft.processAttachment "a@x.com"
                (Draft.attachment_source (attachment_named "unprocessed"))
                OUTGOING)
             (PlainError "Upload to Drive failed")).
    reflexivity.
Defined.



End MoreConcreteRuns.
